(** * Functions on locally compact abelian groups: [abelian/functions.py]

    A shallow embedding of the class [Function] of [abelian/functions.py]
    and the properties of its evaluation, table materialisation and transport
    operators (pullback, pushforward, transversal, shift, pointwise, copy and
    the DFT wrapper).

    Modelling decisions, in one place:
    - group elements are coordinate lists [list Z]; function values are an
      abstract numeric type [V] (class [Numeric]) instantiated at [Z] for the
      concrete scenarios;
    - a Python call either returns or raises: [outcome];
    - a [Function] instance is a record stored in a heap ([gmap loc Function]);
      methods that allocate or write ([to_table], every transform) run in the
      state-and-exception monad [M]; read-only methods ([evaluate], [sample])
      are functions of the instance's state;
    - the closures built by the transforms read [self.representation] when
      they are called; that attribute is assigned in [__init__] only, so the
      closure is modelled as capturing the value it had at creation;
    - collaborators that live outside [functions.py] (numpy's FFT, the
      congruence solver, kernels, the nested-list helpers) are the fields of
      the class [Externals]. *)

From stdpp Require Import gmap strings list.

Local Open Scope Z_scope.

(** ** Python outcomes *)

Inductive exn :=
  | ValueError (msg : string)
  | TypeError (msg : string)
  | NameError (msg : string)
  | AttributeError (msg : string)
  | IndexError (msg : string)
  | ShapeError (msg : string).

Inductive outcome (T : Type) :=
  | Return (a : T)
  | Raise (e : exn).
Arguments Return {T} a.
Arguments Raise {T} e.

#[global] Instance outcome_ret : MRet outcome := λ T a, Return a.
#[global] Instance outcome_bind : MBind outcome := λ T U k m,
  match m with
  | Return a => k a
  | Raise e => Raise e
  end.

(** Error kinds of the specification, as the exceptions the code raises. *)
Definition ArgumentLengthMismatch : exn :=
  ValueError "Function argument does not match domain length.".
Definition DomainMismatch_pullback : exn :=
  ValueError "Target of morphism must equal domain of function.".
Definition DomainMismatch_pushforward : exn :=
  ValueError "Source of morphism must equal domain of function.".
Definition DomainMismatch_pointwise : exn :=
  ValueError "Domains must be the same.".
Definition UnsupportedDomain : exn :=
  ValueError "Domain must be discrete and periodic.".

(** ** The group model (external collaborator) *)

Record LCA := { periods : list Z; discrete : list bool }.

#[global] Instance LCA_eq_dec : EqDecision LCA.
Proof. solve_decision. Defined.

(** Modelled from the spec: [LCA.length()] of the group model, "dimension". *)
Definition LCA_length (G : LCA) : nat := length (periods G).

(** Modelled from the spec: [LCA.is_FGA()], "finitely generated/discrete with
    defined periods": every factor is discrete. *)
Definition is_FGA (G : LCA) : bool := forallb (λ d : bool, d) (discrete G).

(** Modelled from the spec: [LCA.project_element], "reduce each
    discrete-periodic coordinate modulo its period; pass through others". *)
Definition project_coordinate (x p : Z) (d : bool) : Z :=
  if d && (0 <? p) then x mod p else x.

Fixpoint project_coordinates (xs ps : list Z) (ds : list bool) : list Z :=
  match xs, ps, ds with
  | x :: xs', p :: ps', d :: ds' =>
      project_coordinate x p d :: project_coordinates xs' ps' ds'
  | x :: xs', p :: ps', [] =>
      project_coordinate x p true :: project_coordinates xs' ps' []
  | _, _, _ => xs
  end.

Definition project_element (G : LCA) (xs : list Z) : list Z :=
  project_coordinates xs (periods G) (discrete G).

(** Modelled from the spec: [LCA.copy()], a structurally equal group. *)
Definition LCA_copy (G : LCA) : LCA :=
  {| periods := periods G; discrete := discrete G |}.

(** The discrete group [Z_p1 + ... + Z_pn]: [LCA([p1, ..., pn])]. *)
Definition LCA_of (ps : list Z) : LCA :=
  {| periods := ps; discrete := map (λ _, true) ps |}.

(** ** The morphism model (external collaborator) *)

Record HomLCA := {
  A : list (list Z);
  source : LCA;
  target : LCA;
  hom_evaluate : list Z → outcome (list Z)
}.

(** ** Values, tables and representations *)

Class Numeric (V : Type) := {
  zero : V;                    (* the Python integer 0 *)
  add : V → V → V;             (* [+=] *)
  div_int : V → Z → V;         (* [/] by an integer *)
  mul_int : V → Z → V          (* [*] by an integer *)
}.

#[global] Instance Z_Numeric : Numeric Z :=
  {| zero := 0; add := Z.add; div_int := Z.div; mul_int := Z.mul |}.

Section Values.
Context {V E : Type}.

(** A nested list (or array) of values. *)
#[warnings="-register-all"]
Inductive Table :=
  | Entry (v : V)
  | Rows (rows : list Table).

Fixpoint table_map (g : V → V) (t : Table) : Table :=
  match t with
  | Entry v => Entry (g v)
  | Rows rows => Rows (map (table_map g) rows)
  end.

(** The extra positional and keyword arguments [*args, **kwargs]. *)
Record Extra := { args : list E; kwargs : list (string * E) }.

Definition no_extra : Extra := {| args := []; kwargs := [] |}.

Definition is_no_extra (extra : Extra) : bool :=
  match args extra, kwargs extra with
  | [], [] => true
  | _, _ => false
  end.

(** A Python function object: its [__name__] and what a call does. *)
Record pyfunc := {
  fn_name : string;
  fn_call : list Z → Extra → outcome V
}.

(** What [__init__] receives as [representation]. *)
Inductive representation_arg :=
  | FunctionType (f : pyfunc)
  | TableArg (t : Table).

(** The first argument of [evaluate]: a bare number or a sequence. *)
Inductive pyarg :=
  | Num (x : Z)
  | List (l : list Z).

(** The state of one [Function] instance. *)
Record Function := {
  domain : LCA;
  representation : pyfunc;
  table : option Table
}.

(** What [_fft_wrapper] hands back to its caller. *)
Inductive pyobj :=
  | FunctionRef (l : positive)
  | ExceptionObj (e : exn).

End Values.

Arguments Table : clear implicits.
Arguments Extra : clear implicits.
Arguments pyfunc : clear implicits.
Arguments representation_arg : clear implicits.
Arguments Function : clear implicits.

(** ** Collaborators outside [functions.py] *)

(** The helpers of [abelian.utils], numpy and the solver, taken as given. *)
Class Externals (V E : Type) := {
  (* [call_nested_list(table, point)] *)
  call_nested_list : Table V → list Z → outcome V;
  (* [verify_dims_list(table, periods)] *)
  verify_dims_list : Table V → list Z → bool;
  (* [copy_func(f)]: a new function object *)
  copy_func : pyfunc V E → pyfunc V E;
  (* whether [getattr(np, name)] finds an attribute *)
  np_has_attr : string → bool;
  (* [getattr(np.fft, name, None)], applied to the table or to [None] *)
  np_fft : string → option (option (Table V) → outcome (Table V));
  (* [solve(A, b, periods)] of [abelian.linalg.solvers] *)
  solve : list (list Z) → list Z → list Z → outcome (list Z);
  (* [morphism.kernel()] *)
  kernel : HomLCA → HomLCA
}.

Section Model.
Context {V E : Type} `{!Numeric V} `{!Externals V E}.

Local Abbreviation Table := (Table V).
Local Abbreviation Extra := (Extra E).
Local Abbreviation pyfunc := (pyfunc V E).
Local Abbreviation Function := (Function V E).
Local Abbreviation loc := positive.

(** *** Small pieces of Python *)

(** [range(lo, hi)]: the integers [lo, lo+1, ..., hi-1]. *)
Definition range (lo hi : Z) : list Z := seqZ lo (hi - lo).

(** [itertools.product] over [n] copies of [vector]: all [n]-tuples, the
    last position varying fastest. *)
Fixpoint product_repeat (vector : list Z) (n : nat) : list (list Z) :=
  match n with
  | O => [[]]
  | S n' =>
      flat_map (λ x, map (cons x) (product_repeat vector n')) vector
  end.

(** A [for] loop with an accumulator whose body may raise. *)
Fixpoint for_loop {S X : Type} (body : S → X → outcome S) (s : S)
    (xs : list X) : outcome S :=
  match xs with
  | [] => Return s
  | x :: xs' => s' ← body s x; for_loop body s' xs'
  end.

(** A list comprehension whose element expression may raise. *)
Fixpoint comprehension {X Y : Type} (g : X → outcome Y) (xs : list X)
    : outcome (list Y) :=
  match xs with
  | [] => Return []
  | x :: xs' => y ← g x; ys ← comprehension g xs'; Return (y :: ys)
  end.

(** [functools.reduce(operator.mul, dims)]; it raises on an empty list. *)
Definition reduce_mul (dims : list Z) : outcome Z :=
  match dims with
  | [] => Raise (TypeError "reduce() of empty iterable with no initial value")
  | d :: ds => Return (fold_left Z.mul ds d)
  end.

(** Addition of two column matrices; sizes must agree. *)
Definition matrix_add (a b : list Z) : outcome (list Z) :=
  if bool_decide (length a = length b) then Return (zip_with Z.add a b)
  else Raise (ShapeError "Matrix size mismatch.").

(** Modelled from the spec: [norm(element, p = 1)] of [abelian.linalg.utils],
    the "L1-norm of the candidate". *)
Definition norm1 (element : list Z) : Z :=
  foldr (λ x s, Z.abs x + s) 0 element.

(** Modelled from the spec: [function_to_table] of [abelian.utils], which
    "evaluates the representation over the full cartesian product of
    coordinate ranges [0, period_i) for every factor, in factor order". *)
Fixpoint function_to_table_rec (f : list Z → outcome V) (dims : list Z)
    : outcome Table :=
  match dims with
  | [] => v ← f []; Return (Entry v)
  | d :: ds =>
      rows ← comprehension
                (λ i, function_to_table_rec (λ xs, f (i :: xs)) ds)
                (range 0 d);
      Return (Rows rows)
  end.

Definition function_to_table (function : pyfunc) (dims : list Z)
    (extra : Extra) : outcome Table :=
  function_to_table_rec (λ xs, fn_call function xs extra) dims.

(** *** The heap of instances and the method monad *)

Record M (T : Type) := mkM { run : gmap loc Function → outcome T * gmap loc Function }.
Arguments mkM {T} _.
Arguments run {T} _ _.

#[global] Instance M_ret : MRet M := λ T a, mkM (λ h, (Return a, h)).
#[global] Instance M_bind : MBind M := λ T U k m,
  mkM (λ h, match run m h with
            | (Return a, h') => run (k a) h'
            | (Raise e, h') => (Raise e, h')
            end).

Definition raise {T : Type} (e : exn) : M T := mkM (λ h, (Raise e, h)).

Definition lift {T : Type} (o : outcome T) : M T := mkM (λ h, (o, h)).

(** Reading the attributes of [self]. *)
Definition read (self : loc) : M Function :=
  mkM (λ h, match h !! self with
            | Some this => (Return this, h)
            | None => (Raise (AttributeError "no such instance"), h)
            end).

(** [self.table = table]. *)
Definition set_table (self : loc) (t : Table) : M unit :=
  mkM (λ h, (Return (),
             alter (λ this, {| domain := domain this;
                               representation := representation this;
                               table := Some t |}) self h)).

(** A new instance at an address the heap does not use yet. *)
Definition alloc (obj : Function) : M loc :=
  mkM (λ h, let l := fresh (dom h) in (Return l, <[l := obj]> h)).

(** *** [class Function] *)

Definition _discrete_periodic_domain (dom : LCA) : bool :=
  is_FGA dom && forallb (λ p, 0 <? p) (periods dom).

Definition __init__ (rep : representation_arg V E) (dom : LCA)
    : outcome Function :=
  match rep with
  | FunctionType f =>
      Return {| domain := dom; representation := f; table := None |}
  | TableArg t =>
      if negb (_discrete_periodic_domain dom) then
        Raise (TypeError
          "When the function representation is a table,the domain must be a FGA with finite periods.")
      else if negb (verify_dims_list t (periods dom)) then
        Raise (ValueError "Table dimension mismatch.")
      else
        let list_caller :=
          {| fn_name := "table";
             fn_call := λ list_of_points extra,
               if is_no_extra extra then call_nested_list t list_of_points
               else Raise (TypeError
                 "list_caller() takes 1 positional argument") |} in
        Return {| domain := dom; representation := list_caller;
                  table := Some t |}
  end.

(** [type(self)(representation = rep, domain = dom)]. *)
Definition new (rep : representation_arg V E) (dom : LCA) : M loc :=
  obj ← lift (__init__ rep dom); alloc obj.

Definition to_table (self : loc) (extra : Extra) : M (option Table) :=
  this ← read self;
  if negb (_discrete_periodic_domain (domain this)) then mret None
  else
    match table this with
    | Some t => mret (Some t)
    | None =>
        let dims := periods (domain this) in
        t ← lift (function_to_table (representation this) dims extra);
        set_table self t;;
        mret (Some t)
    end.

Definition is_number (list_arg : pyarg) : bool :=
  match list_arg with Num _ => true | List _ => false end.

(** The items of [list_arg], as [len(list_arg)] needs them: a bare number has
    no length. *)
Definition sequence_of (list_arg : pyarg) : outcome (list Z) :=
  match list_arg with
  | Num _ => Raise (TypeError "object has no len()")
  | List l => Return l
  end.

Definition evaluate (this : Function) (list_arg : pyarg) (extra : Extra)
    : outcome V :=
  let domain_length := LCA_length (domain this) in
  list_arg ←
    (if bool_decide (1 < domain_length)%nat then
       if is_number list_arg then
         Raise (ValueError "Argument to function must be list.")
       else Return list_arg
     else if bool_decide (domain_length ≠ 0%nat) && is_number list_arg then
       match list_arg with
       | Num x => Return (List [x])
       | List _ => Return list_arg
       end
     else Return list_arg);
  l ← sequence_of list_arg;
  if bool_decide (domain_length ≠ length l) then
    Raise (ValueError "Function argument does not match domain length.")
  else
    let proj_args := project_element (domain this) l in
    fn_call (representation this) proj_args extra.

Definition __call__ (this : Function) (list_arg : pyarg) (extra : Extra)
    : outcome V :=
  evaluate this list_arg extra.

Definition sample (this : Function) (list_of_elements : list pyarg)
    (extra : Extra) : outcome (list V) :=
  comprehension (λ p, evaluate this p extra) list_of_elements.

Definition _update_name (new_func old_func : pyfunc)
    (composition_str : string) : pyfunc :=
  let comp := (" " +:+ composition_str +:+ " ")%string in
  {| fn_name := (fn_name old_func +:+ comp +:+ fn_name new_func)%string;
     fn_call := fn_call new_func |}.

Definition copy (self : loc) : M loc :=
  this ← read self;
  let repr := copy_func (representation this) in
  let dom := LCA_copy (domain this) in
  new (FunctionType repr) dom.

Definition pointwise (self other : loc) (operator : V → V → outcome V)
    : M loc :=
  this ← read self;
  that ← read other;
  if bool_decide (domain this ≠ domain that) then
    raise (ValueError "Domains must be the same.")
  else
    let new_repr :=
      {| fn_name := "new_repr";
         fn_call := λ list_arg extra,
           result_self ← fn_call (representation this) list_arg extra;
           result_other ← fn_call (representation that) list_arg extra;
           operator result_self result_other |} in
    new (FunctionType new_repr) (domain this).

Definition pullback (self : loc) (morphism : HomLCA) : M loc :=
  this ← read self;
  if negb (bool_decide (domain this = target morphism)) then
    raise (ValueError "Target of morphism must equal domain of function.")
  else
    let dom := source morphism in
    let new_repr :=
      {| fn_name := "pullback";
         fn_call := λ list_arg extra,
           applied_morph ← hom_evaluate morphism list_arg;
           fn_call (representation this) applied_morph extra |} in
    let new_repr := _update_name new_repr (representation this) "*" in
    new (FunctionType new_repr) dom.

(** The default [norm_condition] of [pushforward]. *)
Definition default_norm_condition (element : list Z) : bool :=
  norm1 element <=? 10.

(** One pass through the body of the loop of [pushforward]. *)
Definition pushforward_body (function : pyfunc) (ker : HomLCA)
    (base_ans : list Z) (norm_condition : list Z → bool) (extra : Extra)
    (kernel_sum : V) (p : list Z) : outcome V :=
  let linear_comb := p in
  image ← hom_evaluate ker linear_comb;
  kernel_element ← matrix_add base_ans image;
  if negb (norm_condition kernel_element) then Return kernel_sum
  else
    func_in_ker ← fn_call function kernel_element extra;
    Return (add kernel_sum func_in_ker).

Definition pushforward_representation (function : pyfunc)
    (morphism : HomLCA) (norm_condition : list Z → bool)
    (list_arg : list Z) (extra : Extra) : outcome V :=
  let target_periods := periods (target morphism) in
  base_ans ← solve (A morphism) list_arg target_periods;
  let ker := kernel morphism in
  let kernel_sum := zero in
  let dim_ker_source := LCA_length (source ker) in
  let vector := range (-8) 8 in
  for_loop (pushforward_body function ker base_ans norm_condition extra)
    kernel_sum (product_repeat vector dim_ker_source).

Definition pushforward (self : loc) (morphism : HomLCA)
    (norm_condition : option (list Z → bool)) : M loc :=
  this ← read self;
  if negb (bool_decide (domain this = source morphism)) then
    raise (ValueError "Source of morphism must equal domain of function.")
  else
    let norm_condition :=
      match norm_condition with
      | None => default_norm_condition
      | Some given => given
      end in
    let dom := target morphism in
    let new_representation :=
      {| fn_name := "pushforward";
         fn_call := pushforward_representation (representation this)
                      morphism norm_condition |} in
    let new_representation :=
      _update_name new_representation (representation this) "*" in
    new (FunctionType new_representation) dom.

Definition shift (self : loc) (list_shift : list Z) : M loc :=
  this ← read self;
  let new_domain := domain this in
  let new_representation :=
    {| fn_name := "shift";
       fn_call := λ list_arg extra,
         let generator := zip list_arg list_shift in
         let shifted_arg := map (λ '(arg, shift), arg - shift) generator in
         fn_call (representation this) shifted_arg extra |} in
  let new_representation :=
    _update_name new_representation (representation this) "*" in
  new (FunctionType new_representation) new_domain.

(** [transversal_rule] answers with a list or with [None]; [default] is the
    keyword argument, [None] here when the caller leaves it out, which
    stands for its default value [0]. *)
Definition transversal (self : loc) (epimorphism : HomLCA)
    (transversal_rule : list Z → option (list Z)) (default : option V)
    : M loc :=
  this ← read self;
  let default := from_option id zero default in
  let new_domain := source epimorphism in
  let new_representation :=
    {| fn_name := "new_representation";
       fn_call := λ list_arg extra,
         applied_epi ← hom_evaluate epimorphism list_arg;
         let composed := transversal_rule applied_epi in
         if bool_decide (composed = Some list_arg) then
           fn_call (representation this) applied_epi extra
         else Return default |} in
  new (FunctionType new_representation) new_domain.

(** [func_type] other than [None] reaches [func(...)], a name the module
    does not define when it is imported. *)
Definition _fft_wrapper (self : loc) (func_to_wrap : string)
    (func_type : option string) : M pyobj :=
  this ← read self;
  let dom := domain this in
  let dims := periods dom in
  if negb (forallb (λ p, 0 <? p) dims) && is_FGA dom then
    mret (ExceptionObj (ValueError "Domain must be discrete and periodic."))
  else
    tbl ← match func_type with
          | None => to_table self no_extra
          | Some name =>
              if np_has_attr name then
                raise (NameError "name 'func' is not defined")
              else raise (AttributeError name)
          end;
    match np_fft func_to_wrap with
    | None => raise (ValueError ("Could not wrap:" +:+ func_to_wrap))
    | Some function_wrapped =>
        table_computed ← lift (function_wrapped tbl);
        table_computed ←
          (if bool_decide (func_to_wrap = "fftn"%string) then
             n ← lift (reduce_mul dims);
             mret (table_map (λ v, div_int v n) table_computed)
           else if bool_decide (func_to_wrap = "ifftn"%string) then
             n ← lift (reduce_mul dims);
             mret (table_map (λ v, mul_int v n) table_computed)
           else mret table_computed);
        l ← new (TableArg table_computed) dom;
        mret (FunctionRef l)
    end.

Definition dft (self : loc) (func_type : option string) : M pyobj :=
  _fft_wrapper self "fftn" func_type.

Definition idft (self : loc) (func_type : option string) : M pyobj :=
  _fft_wrapper self "ifftn" func_type.

(** *** Vocabulary of the statements *)

(** The entry of a nested table at an in-range point, [T[c1][c2]...]. *)
Fixpoint table_index (t : Table) (point : list Z) : option V :=
  match point, t with
  | [], Entry v => Some v
  | i :: rest, Rows rows =>
      if 0 <=? i then row ← rows !! Z.to_nat i; table_index row rest
      else None
  | _, _ => None
  end.

(** A nested table has one level per factor, of the factor's period. *)
Fixpoint has_shape (t : Table) (dims : list Z) : bool :=
  match dims, t with
  | [], Entry _ => true
  | d :: ds, Rows rows =>
      (Z.of_nat (length rows) =? d) && forallb (λ row, has_shape row ds) rows
  | _, _ => false
  end.

(** A point lies in the product of the ranges [0, period_i). *)
Definition in_range (point dims : list Z) : Prop :=
  Forall2 (λ c p, 0 ≤ c < p) point dims.

(** The instance a transform builds from a closure. *)
Definition closure_object (f : pyfunc) (G : LCA) : Function :=
  {| domain := G; representation := f; table := None |}.

(** The state of an instance after [self.table = t]. *)
Definition with_table (this : Function) (t : Table) : Function :=
  {| domain := domain this; representation := representation this;
     table := Some t |}.

(** A method allocates one instance and writes nothing else: on return the
    address is new and the heap is the old one extended at that address; on
    an exception the heap is the old one. *)
Definition allocates_only (m : M loc)
    (h : gmap loc Function) : Prop :=
  match run m h with
  | (Return l, h') => h !! l = None ∧ ∃ g, h' = <[l := g]> h
  | (Raise _, h') => h' = h
  end.

(** The pushforward sum as the text describes it, over the closed window
    from [-8] to [8] in every position; compared with
    [pushforward_representation] below. *)
Definition pushforward_representation_closed_window (function : pyfunc)
    (morphism : HomLCA) (norm_condition : list Z → bool)
    (list_arg : list Z) (extra : Extra) : outcome V :=
  base_ans ← solve (A morphism) list_arg (periods (target morphism));
  let ker := kernel morphism in
  for_loop (pushforward_body function ker base_ans norm_condition extra)
    zero (product_repeat (range (-8) 9) (LCA_length (source ker))).

(** *** The remaining methods and the vocabulary of the further properties *)

(** The product of the periods, [functools.reduce(operator.mul, dims)] on a
    list that is not empty. *)
Definition product (dims : list Z) : Z := foldr Z.mul 1 dims.

(** The calls of the six transforms that hand back a [Function]. *)
Inductive transform_call (self : loc) : M loc → Prop :=
  | call_shift list_shift : transform_call self (shift self list_shift)
  | call_pullback morphism : transform_call self (pullback self morphism)
  | call_pushforward morphism norm_condition :
      transform_call self (pushforward self morphism norm_condition)
  | call_transversal epimorphism transversal_rule default :
      transform_call self
        (transversal self epimorphism transversal_rule default)
  | call_pointwise other operator :
      transform_call self (pointwise self other operator)
  | call_copy : transform_call self (copy self).

(** An instance carries a table only on a fully discrete domain with
    positive periods; a heap is sound when all its instances are so. *)
Definition table_on_periodic_domain (this : Function) : Prop :=
  is_Some (table this) → _discrete_periodic_domain (domain this) = true.

Definition sound_heap (h : gmap loc Function) : Prop :=
  ∀ l this, h !! l = Some this → table_on_periodic_domain this.

(** A method keeps a property of the heap, whether it returns or raises. *)
Definition preserves {T : Type} (inv : gmap loc Function → Prop)
    (m : M T) : Prop :=
  ∀ h r h', inv h → run m h = (r, h') → inv h'.

End Model.

Arguments mkM {V E T} _.
Arguments run {V E T} _ _.

(** ** The scenarios of the documentation, over integer values *)

(** [sum(list_arg)]. *)
Definition sum (l : list Z) : Z := foldr Z.add 0 l.

(** Modelled from the spec: [HomLCA.evaluate], the matrix applied to the
    coordinates and reduced in the target group. *)
Definition matrix_apply (rows : list (list Z)) (x : list Z) : list Z :=
  map (λ row, sum (zip_with Z.mul row x)) rows.

Definition Homomorphism (rows : list (list Z)) (src tgt : LCA) : HomLCA :=
  {| A := rows; source := src; target := tgt;
     hom_evaluate := λ x,
       if bool_decide (length x = LCA_length src) then
         Return (project_element tgt (matrix_apply rows x))
       else Raise (ShapeError "Matrix size mismatch.") |}.

(** The identity matrix of size [n]. *)
Fixpoint identity_matrix (n : nat) : list (list Z) :=
  match n with
  | O => []
  | S n' => (1 :: replicate n' 0) :: map (cons 0) (identity_matrix n')
  end.

(** The identity morphism of a group: the identity matrix, from the group
    to itself. *)
Definition identity_morphism (G : LCA) : HomLCA :=
  Homomorphism (identity_matrix (LCA_length G)) G G.

(** The projection [(x, y) ↦ x] from [Z + Z] to [Z], and its kernel, spanned
    by [(0, 1)]. *)
Definition first_coordinate : HomLCA :=
  Homomorphism [[1; 0]] (LCA_of [0; 0]) (LCA_of [0]).

Definition first_coordinate_kernel : HomLCA :=
  Homomorphism [[0]; [1]] (LCA_of [0]) (LCA_of [0; 0]).

(** The collaborators of the integer scenarios: tables are indexed in
    range, a homogeneous congruence is solved by the zero vector, and the
    kernel of [first_coordinate] is [first_coordinate_kernel]; numpy's
    transforms work on complex arrays and are not reached. *)
#[global] Instance scenario_externals : Externals Z unit := {|
  call_nested_list := λ t point,
    match table_index t point with
    | Some v => Return v
    | None => Raise (IndexError "list index out of range")
    end;
  verify_dims_list := λ t dims, has_shape t dims;
  copy_func := λ f, {| fn_name := fn_name f; fn_call := fn_call f |};
  np_has_attr := λ name,
    bool_decide (name = "ogrid"%string ∨ name = "mgrid"%string);
  np_fft := λ name,
    if bool_decide (name = "fftn"%string ∨ name = "ifftn"%string) then
      Some (λ _, Raise (TypeError "complex arrays are not integer tables"))
    else None;
  solve := λ rows b target_periods,
    if forallb (Z.eqb 0) b then
      Return (map (λ _, 0) (default [] (head rows)))
    else Raise (ValueError "only homogeneous systems are solved here");
  kernel := λ morphism,
    if bool_decide (A morphism = [[1; 0]]) then first_coordinate_kernel
    else Homomorphism [] (LCA_of []) (source morphism)
|}.

Definition lambda (body : list Z → Z) : pyfunc Z unit :=
  {| fn_name := "<lambda>"; fn_call := λ list_arg _, Return (body list_arg) |}.

Definition closure_instance (body : list Z → Z) (dom : LCA)
    : Function Z unit :=
  closure_object (lambda body) dom.

(** Transversal scenario: [f(x) = sum(x)**2] on [Z_5], the epimorphism from
    [Z] and the rule of the docstring ([n/2] is [2.5]). *)
Definition f_on_Zn : Function Z unit :=
  closure_instance (λ x, sum x ^ 2) (LCA_of [5]).

Definition epimorphism_Z_Z5 : HomLCA :=
  Homomorphism [[1]] (LCA_of [0]) (LCA_of [5]).

Definition transversal_rule_Z5 (x : list Z) : option (list Z) :=
  if 2 * sum x <? 5 then Some [sum x]
  else if 5 <=? 2 * sum x then Some [sum x - 5]
  else None.

(** Pushforward scenario: the constant function [1] on [Z + Z]. *)
Definition one_on_Z2 : Function Z unit :=
  closure_instance (λ _, 1) (LCA_of [0; 0]).

(** A function on [Z], whose single period is [0]. *)
Definition sum_on_Z : Function Z unit :=
  closure_instance sum (LCA_of [0]).

(** A function given by a table on [Z_5]: [Function([0, 1, 4, 9, 16],
    LCA([5]))]. *)
Definition squares_table : Table Z :=
  Rows [Entry 0; Entry 1; Entry 4; Entry 9; Entry 16].

Definition table_on_Z5 : Function Z unit :=
  match __init__ (TableArg squares_table) (LCA_of [5]) with
  | Return this => this
  | Raise _ => closure_instance (λ _, 0) (LCA_of [5])
  end.

(** [sum] on [Z + Z]. *)
Definition sum_on_Z2 : Function Z unit :=
  closure_instance sum (LCA_of [0; 0]).

(** A stand-in for numpy in the integer scenarios: both transforms hand the
    table back as it is, so that only the scaling of the wrapper shows. *)
Definition passthrough_externals : Externals Z unit := {|
  call_nested_list := call_nested_list (Externals := scenario_externals);
  verify_dims_list := verify_dims_list (Externals := scenario_externals);
  copy_func := copy_func (Externals := scenario_externals);
  np_has_attr := np_has_attr (Externals := scenario_externals);
  np_fft := λ name,
    if bool_decide (name = "fftn"%string ∨ name = "ifftn"%string) then
      Some (λ tbl,
        match tbl with
        | Some t => Return t
        | None => Raise (TypeError "no table")
        end)
    else None;
  solve := solve (Externals := scenario_externals);
  kernel := kernel (Externals := scenario_externals)
|}.

(** [f(x) = 12 * sum(x)] on [Z_2 + Z_3]. *)
Definition twelve_sum_on_Z2_Z3 : Function Z unit :=
  closure_instance (λ x, 12 * sum x) (LCA_of [2; 3]).

(** The collaborators of the identity scenario on [Z]: the congruence
    [x = b] is solved by [b] itself, and the kernel is trivial, a morphism
    from the group without factors. *)
Definition identity_on_Z : HomLCA :=
  Homomorphism [[1]] (LCA_of [0]) (LCA_of [0]).

Definition identity_externals : Externals Z unit := {|
  call_nested_list := call_nested_list (Externals := scenario_externals);
  verify_dims_list := verify_dims_list (Externals := scenario_externals);
  copy_func := copy_func (Externals := scenario_externals);
  np_has_attr := np_has_attr (Externals := scenario_externals);
  np_fft := np_fft (Externals := scenario_externals);
  solve := λ rows b target_periods, Return b;
  kernel := λ morphism,
    Homomorphism (map (λ _, []) (periods (source morphism)))
      (LCA_of []) (source morphism)
|}.

(** * Properties *)

Section Properties.
Context {V E : Type} `{!Numeric V} `{!Externals V E}.

Implicit Types (h : gmap positive (Function V E)).
Implicit Types (this that g : Function V E) (self other l : positive).
Implicit Types (extra : Extra E) (f : pyfunc V E).

(** ** The method monad *)

Lemma fresh_unused h : h !! fresh (dom h) = None.
Proof. apply not_elem_of_dom, is_fresh. Qed.

Lemma run_read h self this :
  h !! self = Some this → run (read self) h = (Return this, h).
Proof. intros Hself. unfold read. simpl. now rewrite Hself. Qed.

Lemma run_bind {T U : Type} (m : M T) (k : T → M U) h :
  run (m ≫= k) h =
  match run m h with
  | (Return a, h') => run (k a) h'
  | (Raise e, h') => (Raise e, h')
  end.
Proof. reflexivity. Qed.

Lemma run_new_closure h f (G : LCA) :
  run (new (FunctionType f) G) h =
  (Return (fresh (dom h)), <[fresh (dom h) := closure_object f G]> h).
Proof. reflexivity. Qed.

Ltac step_read Hself :=
  rewrite run_bind, (run_read _ _ _ Hself).

(** ** Pullback *)

Lemma length_project_coordinates (xs ps : list Z) (ds : list bool) :
  length (project_coordinates xs ps ds) = length xs.
Proof.
  revert ps ds. induction xs as [|x xs IH]; intros [|p ps] [|d ds]; cbn;
    by rewrite ?IH.
Qed.

Lemma project_coordinate_idempotent (x p : Z) (d : bool) :
  project_coordinate (project_coordinate x p d) p d = project_coordinate x p d.
Proof.
  unfold project_coordinate. destruct (d && (0 <? p)); [apply Zmod_mod|done].
Qed.

Lemma project_coordinates_idempotent (xs ps : list Z) (ds : list bool) :
  project_coordinates (project_coordinates xs ps ds) ps ds =
  project_coordinates xs ps ds.
Proof.
  revert ps ds. induction xs as [|x xs IH]; intros [|p ps] [|d ds]; cbn;
    by rewrite ?project_coordinate_idempotent, ?IH.
Qed.

Lemma sum_zip_with_zeros (n : nat) (v : list Z) :
  sum (zip_with Z.mul (replicate n 0) v) = 0.
Proof.
  revert v. induction n as [|n IH]; intros [|a v]; cbn; try done.
  by rewrite IH.
Qed.

Lemma matrix_apply_identity (v : list Z) :
  matrix_apply (identity_matrix (length v)) v = v.
Proof.
  induction v as [|a v IH]; [done|].
  unfold matrix_apply in *. cbn. rewrite sum_zip_with_zeros. f_equal; [lia|].
  rewrite map_map. cbn. exact IH.
Qed.

(** The identity morphism of the model sends every reduced point of the
    right length to itself. *)
Lemma identity_morphism_projected (G : LCA) (x : list Z) :
  length x = LCA_length G →
  hom_evaluate (identity_morphism G) (project_element G x) =
  Return (project_element G x).
Proof.
  intros Hlen. unfold identity_morphism, Homomorphism, project_element. cbn.
  rewrite bool_decide_true by (by rewrite length_project_coordinates).
  f_equal. rewrite <- Hlen.
  rewrite <- (length_project_coordinates x (periods G) (discrete G)) at 1.
  rewrite matrix_apply_identity.
  apply project_coordinates_idempotent.
Qed.

(** Two instances on the same domain whose representations agree on the
    reduced points of the right length evaluate alike at every argument. *)
Lemma evaluate_agree this that :
  domain that = domain this →
  (∀ x extra, length x = LCA_length (domain this) →
     fn_call (representation that) (project_element (domain this) x) extra =
     fn_call (representation this) (project_element (domain this) x) extra) →
  ∀ p extra, evaluate that p extra = evaluate this p extra.
Proof.
  intros Hdom Hagree p extra. unfold evaluate. rewrite Hdom.
  destruct (bool_decide (1 < LCA_length (domain this))%nat);
    destruct p as [x|xs]; cbn -[project_element];
    repeat (case_bool_decide; cbn -[project_element]); try reflexivity;
    apply Hagree; cbn in *; lia.
Qed.

(** C5. [pullback] along a morphism whose target is the function's domain
    allocates a new instance on the morphism's source whose representation
    is the exact composition of the morphism and the old representation;
    with any other target it raises the domain-mismatch error and leaves the
    heap alone; along a morphism from the domain to itself that sends every
    reduced point of the right length to itself, and so along the identity
    morphism of the domain, every sample is unchanged. *)
Theorem pullback_composition h self this (morphism : HomLCA) :
  h !! self = Some this →
  (domain this = target morphism →
   ∃ l g,
     run (pullback self morphism) h = (Return l, <[l := g]> h) ∧
     h !! l = None ∧
     domain g = source morphism ∧
     (∀ x extra,
        fn_call (representation g) x extra =
        (y ← hom_evaluate morphism x; fn_call (representation this) y extra)) ∧
     (source morphism = domain this →
      (∀ x, length x = LCA_length (domain this) →
         hom_evaluate morphism (project_element (domain this) x) =
         Return (project_element (domain this) x)) →
      ∀ points extra, sample g points extra = sample this points extra)) ∧
  (domain this ≠ target morphism →
   run (pullback self morphism) h = (Raise DomainMismatch_pullback, h)) ∧
  (∃ l g,
     run (pullback self (identity_morphism (domain this))) h =
       (Return l, <[l := g]> h) ∧
     h !! l = None ∧
     domain g = domain this ∧
     ∀ points extra, sample g points extra = sample this points extra).
Proof.
  intros Hself.
  assert (Hgeneral : ∀ phi : HomLCA, domain this = target phi →
    ∃ l g,
      run (pullback self phi) h = (Return l, <[l := g]> h) ∧
      h !! l = None ∧
      domain g = source phi ∧
      (∀ x extra,
         fn_call (representation g) x extra =
         (y ← hom_evaluate phi x; fn_call (representation this) y extra)) ∧
      (source phi = domain this →
       (∀ x, length x = LCA_length (domain this) →
          hom_evaluate phi (project_element (domain this) x) =
          Return (project_element (domain this) x)) →
       ∀ points extra, sample g points extra = sample this points extra)).
  { intros phi Heq. unfold pullback. step_read Hself.
    rewrite bool_decide_true by done. cbn [negb].
    rewrite run_new_closure.
    eexists _, _. split; [reflexivity|].
    split; [apply fresh_unused|]. split; [reflexivity|]. split.
    - intros x extra. reflexivity.
    - intros Hsrc Hid points extra. unfold sample.
      induction points as [|p points IH]; [reflexivity|].
      cbn [comprehension]. rewrite IH. f_equal.
      apply evaluate_agree; [exact Hsrc|].
      intros x extra' Hlen. cbn. by rewrite (Hid x Hlen). }
  split; [exact (Hgeneral morphism)|]. split.
  - intros Hne. unfold pullback. step_read Hself.
    rewrite bool_decide_false by done. reflexivity.
  - destruct (Hgeneral (identity_morphism (domain this)) eq_refl)
      as (l & g & Hrun & Hnew & Hdom & _ & Hsample).
    exists l, g. split; [exact Hrun|]. split; [exact Hnew|].
    split; [exact Hdom|].
    apply Hsample; [reflexivity|].
    intros x Hlen. by apply identity_morphism_projected.
Qed.

(** ** Evaluation *)

(** C7. On a domain of dimension one a bare number is evaluated as the
    one-element list holding it; a sequence whose length is not the
    dimension of the domain raises the argument-length error. *)
Theorem evaluate_scalar_and_length this extra :
  (LCA_length (domain this) = 1%nat →
   ∀ s, evaluate this (Num s) extra = evaluate this (List [s]) extra) ∧
  (∀ xs, length xs ≠ LCA_length (domain this) →
   evaluate this (List xs) extra = Raise ArgumentLengthMismatch).
Proof.
  split.
  - intros Hdim s. unfold evaluate. rewrite Hdim. reflexivity.
  - intros xs Hlen. unfold evaluate.
    case_bool_decide; cbn.
    + rewrite bool_decide_true by congruence. reflexivity.
    + rewrite andb_false_r. cbn.
      rewrite bool_decide_true by congruence. reflexivity.
Qed.

(** On a sequence of the right length [evaluate] projects the point and
    calls the representation. *)
Lemma evaluate_list this xs extra :
  length xs = LCA_length (domain this) →
  evaluate this (List xs) extra =
  fn_call (representation this) (project_element (domain this) xs) extra.
Proof.
  intros Hlen. unfold evaluate.
  case_bool_decide; cbn.
  - rewrite bool_decide_false by (intros Hne; apply Hne; congruence).
    reflexivity.
  - rewrite andb_false_r. cbn.
    rewrite bool_decide_false by (intros Hne; apply Hne; congruence).
    reflexivity.
Qed.

(** ** Shift *)

(** C9. [shift] accepts a shift vector of any length and never raises: the
    new representation calls the old one on the differences of the first
    [min (length x) (length list_shift)] coordinates, so a short shift
    vector hands a truncated point to the old representation and surplus
    shift entries play no part; through [evaluate] no length error arises
    from the shift vector. *)
Theorem shift_truncates h self this (list_shift : list Z) :
  h !! self = Some this →
  ∃ l g,
    run (shift self list_shift) h = (Return l, <[l := g]> h) ∧
    h !! l = None ∧
    domain g = domain this ∧
    (∀ x extra, ∃ shifted,
       fn_call (representation g) x extra =
       fn_call (representation this) shifted extra ∧
       length shifted = Nat.min (length x) (length list_shift) ∧
       ∀ i, shifted !! i =
            (xi ← x !! i; si ← list_shift !! i; Some (xi - si))) ∧
    (∀ x extra, length x = LCA_length (domain this) →
       evaluate g (List x) extra =
       fn_call (representation this)
         (zip_with Z.sub (project_element (domain this) x) list_shift) extra).
Proof.
  intros Hself. unfold shift. step_read Hself. rewrite run_new_closure.
  eexists _, _. split; [reflexivity|].
  split; [apply fresh_unused|]. split; [reflexivity|].
  assert (Hzip : ∀ x : list Z,
            map (λ '(arg, shift), arg - shift) (zip x list_shift) =
            zip_with Z.sub x list_shift).
  { intros x. revert list_shift. clear.
    induction x as [|a x IH]; intros [|s ss]; cbn; [done..|].
    now rewrite IH. }
  split.
  - intros x extra. exists (zip_with Z.sub x list_shift).
    split; [cbn; now rewrite Hzip|].
    split; [apply length_zip_with|].
    intros i. rewrite lookup_zip_with. reflexivity.
  - intros x extra Hlen. rewrite evaluate_list by exact Hlen.
    cbn. now rewrite Hzip.
Qed.

(** ** Transversal *)

(** The function returned by [transversal], in general: at [x], with
    [y = epimorphism.evaluate(x)], the old representation at [y] when the
    rule sends [y] back to [x], and the default value otherwise. *)
Lemma transversal_general h self this (epimorphism : HomLCA)
    (transversal_rule : list Z → option (list Z)) (default : option V) :
  h !! self = Some this →
  ∃ l g,
    run (transversal self epimorphism transversal_rule default) h =
      (Return l, <[l := g]> h) ∧
    h !! l = None ∧
    domain g = source epimorphism ∧
    ∀ x y extra, hom_evaluate epimorphism x = Return y →
      (transversal_rule y = Some x →
       fn_call (representation g) x extra =
       fn_call (representation this) y extra) ∧
      (transversal_rule y ≠ Some x →
       fn_call (representation g) x extra =
       Return (from_option id zero default)).
Proof.
  intros Hself. unfold transversal. step_read Hself.
  rewrite run_new_closure.
  eexists _, _. split; [reflexivity|].
  split; [apply fresh_unused|]. split; [reflexivity|].
  intros x y extra Hy. cbn. rewrite Hy. cbn. split; intros Hrule.
  - now rewrite bool_decide_true.
  - now rewrite bool_decide_false.
Qed.

(** ** Table materialisation *)

Lemma comprehension_Forall2 {X Y : Type} (fn : X → outcome Y) xs ys :
  comprehension fn xs = Return ys → Forall2 (λ x y, fn x = Return y) xs ys.
Proof.
  revert ys. induction xs as [|x xs IH]; intros ys; cbn.
  - intros [= <-]. constructor.
  - destruct (fn x) as [y|e] eqn:Hy; cbn; [|discriminate].
    destruct (comprehension fn xs) as [ys'|e]; cbn; [|discriminate].
    intros [= <-]. constructor; [exact Hy|]. now apply IH.
Qed.

Lemma comprehension_returns {X Y : Type} (fn : X → outcome Y) xs :
  (∀ x, x ∈ xs → ∃ y, fn x = Return y) →
  ∃ ys, comprehension fn xs = Return ys.
Proof.
  induction xs as [|x xs IH]; intros Hall; cbn; [by eexists|].
  destruct (Hall x) as [y ->]; [by left|].
  destruct IH as [ys ->]; [intros x' Hx'; apply Hall; by right|].
  by eexists.
Qed.

Lemma lookup_range_0 (d c : Z) :
  0 ≤ c < d → range 0 d !! Z.to_nat c = Some c.
Proof.
  intros Hc. unfold range. apply lookup_seqZ. split; lia.
Qed.

Lemma elem_of_range (lo hi x : Z) : x ∈ range lo hi ↔ lo ≤ x < hi.
Proof. unfold range. rewrite elem_of_seqZ. lia. Qed.

(** Every in-range point of the product is evaluated, and its value sits
    in the table at that point, one nesting level per factor. *)
Lemma function_to_table_rec_index (fn : list Z → outcome V) dims t :
  function_to_table_rec fn dims = Return t →
  ∀ point, in_range point dims →
    ∃ v, fn point = Return v ∧ table_index t point = Some v.
Proof.
  revert fn t. induction dims as [|d ds IH]; intros fn t; cbn.
  - destruct (fn []) as [v|e] eqn:Hv; cbn; [|discriminate].
    intros [= <-] point Hin. inversion Hin; subst. eauto.
  - destruct (comprehension _ (range 0 d)) as [rows|e] eqn:Hrows; cbn;
      [|discriminate].
    intros [= <-] point Hin.
    inversion Hin as [|c p cs ps Hc Hcs]; subst.
    apply comprehension_Forall2 in Hrows.
    destruct (Forall2_lookup_l _ _ _ _ _ Hrows (lookup_range_0 d c Hc))
      as (row & Hrow & Hrec).
    destruct (IH _ _ Hrec cs Hcs) as (v & Hv & Hidx).
    exists v. split; [exact Hv|]. cbn.
    destruct (Z.leb_spec 0 c); [|lia].
    rewrite Hrow. exact Hidx.
Qed.

(** The table has exactly the shape of the periods. *)
Lemma function_to_table_rec_shape (fn : list Z → outcome V) dims t :
  Forall (λ p, 0 < p) dims →
  function_to_table_rec fn dims = Return t → has_shape t dims = true.
Proof.
  intros Hpos. revert fn t.
  induction Hpos as [|d ds Hd Hds IH]; intros fn t; cbn.
  - destruct (fn []); cbn; [|discriminate]. now intros [= <-].
  - destruct (comprehension _ (range 0 d)) as [rows|e] eqn:Hrows; cbn;
      [|discriminate].
    intros [= <-]. apply comprehension_Forall2 in Hrows. cbn.
    apply andb_true_intro. split.
    + apply Z.eqb_eq. rewrite <- (Forall2_length _ _ _ Hrows).
      unfold range. rewrite length_seqZ. lia.
    + apply forallb_forall. intros row Hrow%list_elem_of_In.
      apply list_elem_of_lookup in Hrow as [i Hi].
      destruct (Forall2_lookup_r _ _ _ _ _ Hrows Hi) as (c & _ & Hrec).
      exact (IH _ _ Hrec).
Qed.

(** The materialisation returns as soon as the representation returns on
    every point of the product. *)
Lemma function_to_table_rec_returns (fn : list Z → outcome V) dims :
  (∀ point, in_range point dims → ∃ v, fn point = Return v) →
  ∃ t, function_to_table_rec fn dims = Return t.
Proof.
  revert fn. induction dims as [|d ds IH]; intros fn Hall; cbn.
  - destruct (Hall []) as [v ->]; [constructor|]. by eexists.
  - destruct (comprehension_returns
                (λ i, function_to_table_rec (λ xs, fn (i :: xs)) ds)
                (range 0 d)) as [rows ->].
    + intros c Hc%elem_of_range. apply IH. intros point Hin.
      apply Hall. by constructor.
    + by eexists.
Qed.

Lemma discrete_periodic_positive (G : LCA) :
  _discrete_periodic_domain G = true → Forall (λ p, 0 < p) (periods G).
Proof.
  unfold _discrete_periodic_domain. intros [_ Hall]%andb_prop.
  apply Forall_forall. intros p Hp%list_elem_of_In.
  rewrite forallb_forall in Hall. apply Hall in Hp. lia.
Qed.

Lemma run_to_table_other h self this extra :
  h !! self = Some this →
  _discrete_periodic_domain (domain this) = false →
  run (to_table self extra) h = (Return None, h).
Proof.
  intros Hself Hdp. unfold to_table. step_read Hself. now rewrite Hdp.
Qed.

Lemma run_to_table_cached h self this extra t :
  h !! self = Some this →
  _discrete_periodic_domain (domain this) = true →
  table this = Some t →
  run (to_table self extra) h = (Return (Some t), h).
Proof.
  intros Hself Hdp Ht. unfold to_table. step_read Hself.
  now rewrite Hdp, Ht.
Qed.

Lemma run_to_table_first h self this extra :
  h !! self = Some this →
  _discrete_periodic_domain (domain this) = true →
  table this = None →
  run (to_table self extra) h =
  match function_to_table (representation this) (periods (domain this))
          extra with
  | Return t => (Return (Some t), <[self := with_table this t]> h)
  | Raise e => (Raise e, h)
  end.
Proof.
  intros Hself Hdp Ht. unfold to_table. step_read Hself.
  rewrite Hdp, Ht. cbn [negb]. rewrite run_bind. cbn [lift run].
  destruct (function_to_table _ _ _) as [t|e]; [|reflexivity].
  cbn. f_equal. apply map_eq. intros i.
  rewrite lookup_alter, lookup_insert.
  destruct (decide (self = i)) as [<-|]; [|reflexivity].
  now rewrite Hself.
Qed.

(** C6. On a fully discrete domain with positive periods the first
    [to_table] evaluates the representation at every point of the product
    of the ranges, nested in factor order, stores the table in the instance
    and returns it; once a table is stored every later call returns that
    very table and leaves the heap as it is, whatever the arguments, without
    consulting the representation; on any other domain the call returns no
    table, raises nothing and writes nothing. *)
Theorem to_table_memoized h self this extra :
  h !! self = Some this →
  (_discrete_periodic_domain (domain this) = false →
   run (to_table self extra) h = (Return None, h)) ∧
  (_discrete_periodic_domain (domain this) = true →
   (∀ t, table this = Some t →
      run (to_table self extra) h = (Return (Some t), h)) ∧
   (table this = None →
      ((∀ point, in_range point (periods (domain this)) →
          ∃ v, fn_call (representation this) point extra = Return v) →
       ∃ t, function_to_table (representation this)
              (periods (domain this)) extra = Return t) ∧
      ∀ t,
        function_to_table (representation this) (periods (domain this))
          extra = Return t →
        let h' := <[self := with_table this t]> h in
        run (to_table self extra) h = (Return (Some t), h') ∧
        has_shape t (periods (domain this)) = true ∧
        (∀ point, in_range point (periods (domain this)) →
           ∃ v, fn_call (representation this) point extra = Return v ∧
                table_index t point = Some v) ∧
        (∀ extra', run (to_table self extra') h' = (Return (Some t), h')))).
Proof.
  intros Hself. split; [apply run_to_table_other, Hself|].
  intros Hdp. split.
  - intros t Ht. by eapply run_to_table_cached.
  - intros Hnone. split.
    + intros Hall. by apply function_to_table_rec_returns.
    + intros t Ht h'. split; [|split; [|split]].
      * rewrite (run_to_table_first _ _ _ _ Hself Hdp Hnone). now rewrite Ht.
      * eapply function_to_table_rec_shape;
          [by apply discrete_periodic_positive | exact Ht].
      * intros point Hin.
        exact (function_to_table_rec_index _ _ _ Ht point Hin).
      * intros extra'.
        apply (run_to_table_cached h' self (with_table this t) extra' t);
          [apply lookup_insert_eq | exact Hdp | reflexivity].
Qed.

(** ** Copy *)

Lemma init_table_inv (t : Table V) (G : LCA) this :
  __init__ (TableArg t) G = Return this →
  _discrete_periodic_domain G = true ∧ domain this = G ∧
  table this = Some t.
Proof.
  cbn. destruct (_discrete_periodic_domain G); cbn; [|discriminate].
  destruct (verify_dims_list t (periods G)); cbn; [|discriminate].
  now intros [= <-].
Qed.

(** C10. The copy of an instance built from a table is a closure instance:
    its representation is the copied function object and its table
    attribute is empty, although the original carries the table; when the
    copied function object behaves as the function it copies, the copy
    evaluates as the original at every argument; the next [to_table] on the
    copy materialises a table from the representation and stores it. *)
Theorem copy_drops_table h self this (t : Table V) (G : LCA) :
  h !! self = Some this →
  __init__ (TableArg t) G = Return this →
  ∃ l g,
    run (copy self) h = (Return l, <[l := g]> h) ∧
    h !! l = None ∧
    table this = Some t ∧
    table g = None ∧
    representation g = copy_func (representation this) ∧
    domain g = domain this ∧
    ((∀ x extra, fn_call (copy_func (representation this)) x extra =
                 fn_call (representation this) x extra) →
     ∀ p extra, evaluate g p extra = evaluate this p extra) ∧
    (∀ extra t',
       function_to_table (representation g) (periods (domain g)) extra =
         Return t' →
       run (to_table l extra) (<[l := g]> h) =
       (Return (Some t'), <[l := with_table g t']> (<[l := g]> h))).
Proof.
  intros Hself Hinit. apply init_table_inv in Hinit as (Hdp & HG & Ht).
  unfold copy. step_read Hself. rewrite run_new_closure.
  assert (Hcopy : LCA_copy (domain this) = domain this)
    by (unfold LCA_copy; now destruct (domain this)).
  rewrite Hcopy.
  eexists _, _. split; [reflexivity|].
  split; [apply fresh_unused|]. split; [exact Ht|].
  split; [reflexivity|]. split; [reflexivity|]. split; [reflexivity|].
  split.
  - intros Hcall p extra. unfold evaluate.
    cbn [domain representation closure_object].
    destruct (bool_decide (1 < LCA_length (domain this))%nat);
      destruct p as [x|xs]; cbn;
      repeat (case_bool_decide; cbn); try reflexivity; apply Hcall.
  - intros extra t' Ht'.
    rewrite (run_to_table_first _ _ _ extra (lookup_insert_eq _ _ _));
      [| cbn; now rewrite HG | reflexivity].
    now rewrite Ht'.
Qed.

(** ** What a transform leaves behind *)

Lemma allocates_only_new h (rep : representation_arg V E) (G : LCA) :
  allocates_only (new rep G) h.
Proof.
  unfold allocates_only, new. rewrite run_bind. cbn [lift run].
  destruct (__init__ rep G) as [obj|e]; [|reflexivity].
  cbn. split; [apply fresh_unused|]. by eexists.
Qed.

Lemma allocates_only_read_then h self (k : Function V E → M positive) :
  (∀ this h', allocates_only (k this) h') →
  allocates_only (read self ≫= k) h.
Proof.
  intros Hk. unfold allocates_only. rewrite run_bind. unfold read.
  cbn [run]. destruct (h !! self) as [this|]; [apply Hk|reflexivity].
Qed.

Lemma allocates_only_raise h e : allocates_only (raise e) h.
Proof. reflexivity. Qed.

Create HintDb frame.
#[local] Hint Resolve allocates_only_new allocates_only_raise : frame.

(** The six transforms that hand back a [Function] allocate one new
    instance and write to no existing one. *)
Lemma transforms_allocate_only h self :
  (∀ list_shift, allocates_only (shift self list_shift) h) ∧
  (∀ morphism, allocates_only (pullback self morphism) h) ∧
  (∀ morphism norm_condition,
     allocates_only (pushforward self morphism norm_condition) h) ∧
  (∀ epimorphism transversal_rule default,
     allocates_only (transversal self epimorphism transversal_rule default) h) ∧
  (∀ other operator, allocates_only (pointwise self other operator) h) ∧
  allocates_only (copy self) h.
Proof.
  repeat split; intros;
    try (apply allocates_only_read_then; intros this h'; cbv zeta;
         try case_match; auto with frame).
  apply allocates_only_read_then. intros that h''.
  case_bool_decide; auto with frame.
Qed.

(** What [allocates_only] means for the receiver: the instance handed back
    is another one, and the receiver is bit for bit what it was. *)
Lemma allocates_only_receiver (m : M positive) h self this l h' :
  allocates_only m h →
  h !! self = Some this →
  run m h = (Return l, h') →
  l ≠ self ∧ h' !! self = Some this ∧ is_Some (h' !! l).
Proof.
  unfold allocates_only. intros Hm Hself Hrun. rewrite Hrun in Hm.
  destruct Hm as (Hnew & g & ->).
  assert (l ≠ self) by congruence.
  split; [done|]. split.
  - now rewrite lookup_insert_ne.
  - rewrite lookup_insert_eq. by eexists.
Qed.

(** [to_table] writes at most the table attribute of its receiver. *)
Lemma to_table_frame h self this extra r h' :
  h !! self = Some this →
  run (to_table self extra) h = (r, h') →
  h' = h ∨ ∃ t, h' = <[self := with_table this t]> h.
Proof.
  intros Hself.
  destruct (_discrete_periodic_domain (domain this)) eqn:Hdp.
  - destruct (table this) as [t|] eqn:Ht.
    + rewrite (run_to_table_cached _ _ _ _ _ Hself Hdp Ht).
      intros [= _ <-]. by left.
    + rewrite (run_to_table_first _ _ _ _ Hself Hdp Ht).
      destruct (function_to_table _ _ _) as [t|e]; intros [= _ <-];
        [right; by eexists | by left].
  - rewrite (run_to_table_other _ _ _ _ Hself Hdp). intros [= _ <-]. by left.
Qed.

(** What is left of the wrapper once the table is at hand: it raises, or it
    allocates the transformed instance. *)
Lemma fft_wrapper_tail h1 (G : LCA) (func_to_wrap : string)
    (tbl : option (Table V)) r h' :
  run (match np_fft func_to_wrap with
       | None => raise (ValueError ("Could not wrap:" +:+ func_to_wrap))
       | Some function_wrapped =>
           table_computed ← lift (function_wrapped tbl);
           table_computed ←
             (if bool_decide (func_to_wrap = "fftn"%string) then
                n ← lift (reduce_mul (periods G));
                mret (table_map (λ v, div_int v n) table_computed)
              else if bool_decide (func_to_wrap = "ifftn"%string) then
                n ← lift (reduce_mul (periods G));
                mret (table_map (λ v, mul_int v n) table_computed)
              else mret table_computed);
           l ← new (TableArg table_computed) G;
           mret (FunctionRef l)
       end) h1 = (r, h') →
  (h' = h1 ∧ ∃ e, r = Raise e) ∨
  (∃ obj, r = Return (FunctionRef (fresh (dom h1))) ∧
          h' = <[fresh (dom h1) := obj]> h1).
Proof.
  destruct (np_fft func_to_wrap) as [function_wrapped|].
  2:{ intros [= <- <-]. left. split; [done|by eexists]. }
  rewrite run_bind. cbn [lift run].
  destruct (function_wrapped tbl) as [tc|e].
  2:{ intros [= <- <-]. left. split; [done|by eexists]. }
  rewrite run_bind.
  assert (Hscale : ∀ (scaled : Z → V → V) (rest : Table V → M pyobj),
    run ((n ← lift (reduce_mul (periods G));
          mret (table_map (scaled n) tc)) ≫= rest) h1 =
    match reduce_mul (periods G) with
    | Return n => run (rest (table_map (scaled n) tc)) h1
    | Raise e => (Raise e, h1)
    end).
  { intros scaled rest. rewrite !run_bind. cbn [lift run].
    now destruct (reduce_mul (periods G)). }
  assert (Hnew : ∀ tc', run (l ← new (TableArg tc') G; mret (FunctionRef l)) h1
                        = (r, h') →
    (h' = h1 ∧ ∃ e, r = Raise e) ∨
    (∃ obj, r = Return (FunctionRef (fresh (dom h1))) ∧
            h' = <[fresh (dom h1) := obj]> h1)).
  { intros tc'. unfold new. rewrite !run_bind. cbn [lift run].
    destruct (__init__ (TableArg tc') G) as [obj|e].
    - cbn. intros [= <- <-]. right. by eexists.
    - intros [= <- <-]. left. split; [done|by eexists]. }
  rewrite <- run_bind.
  case_bool_decide; [|case_bool_decide].
  - rewrite (Hscale (λ n v, div_int v n)).
    destruct (reduce_mul (periods G)); [apply Hnew|].
    intros [= <- <-]. left. split; [done|by eexists].
  - rewrite (Hscale (λ n v, mul_int v n)).
    destruct (reduce_mul (periods G)); [apply Hnew|].
    intros [= <- <-]. left. split; [done|by eexists].
  - rewrite run_bind. cbn [mret M_ret run]. apply Hnew.
Qed.

(** ** The DFT wrapper *)

(** On a discrete domain with a period that is not positive the wrapper
    hands the error back as its value: nothing is raised. *)
Lemma fft_wrapper_error_object h self this func_to_wrap func_type :
  h !! self = Some this →
  is_FGA (domain this) = true →
  forallb (λ p, 0 <? p) (periods (domain this)) = false →
  run (_fft_wrapper self func_to_wrap func_type) h =
  (Return (ExceptionObj UnsupportedDomain), h).
Proof.
  intros Hself HFGA Hpos. unfold _fft_wrapper. step_read Hself.
  now rewrite HFGA, Hpos.
Qed.

(** On a domain with a factor that is not discrete the guard lets the call
    through: no table exists, and the numpy routine is called on [None]; an
    exception, if any, is the one that routine raises. *)
Lemma fft_wrapper_not_discrete h self this func_to_wrap function_wrapped e :
  h !! self = Some this →
  is_FGA (domain this) = false →
  np_fft func_to_wrap = Some function_wrapped →
  function_wrapped None = Raise e →
  run (_fft_wrapper self func_to_wrap None) h = (Raise e, h).
Proof.
  intros Hself HFGA Hnp Hcall. unfold _fft_wrapper. step_read Hself.
  rewrite HFGA, andb_false_r. rewrite run_bind.
  rewrite (run_to_table_other _ _ _ _ Hself)
    by (unfold _discrete_periodic_domain; now rewrite HFGA).
  rewrite Hnp, run_bind. cbn [lift run]. now rewrite Hcall.
Qed.

(** Whatever the wrapper does, the receiver keeps its domain and its
    representation, every other instance is untouched, and an instance
    handed back is a new one. *)
Lemma fft_wrapper_frame h self this func_to_wrap func_type r h' :
  h !! self = Some this →
  run (_fft_wrapper self func_to_wrap func_type) h = (r, h') →
  (∃ this', h' !! self = Some this' ∧ domain this' = domain this ∧
            representation this' = representation this) ∧
  (∀ l0 that, l0 ≠ self → h !! l0 = Some that → h' !! l0 = Some that) ∧
  (∀ l, r = Return (FunctionRef l) →
        h !! l = None ∧ l ≠ self ∧ is_Some (h' !! l)).
Proof.
  intros Hself. unfold _fft_wrapper. step_read Hself.
  destruct (negb _ && _).
  { intros [= <- <-]. split; [by exists this|]. split; [done|]. discriminate. }
  rewrite run_bind.
  assert (Htable : ∃ rt h1,
    run (match func_type with
         | None => to_table self no_extra
         | Some name =>
             if np_has_attr name
             then raise (NameError "name 'func' is not defined")
             else raise (AttributeError name)
         end) h = (rt, h1) ∧
    (h1 = h ∨ ∃ t, h1 = <[self := with_table this t]> h)).
  { destruct func_type as [name|].
    - destruct (np_has_attr name); eexists _, _; (split; [reflexivity|]);
        by left.
    - destruct (run (to_table self no_extra) h) as [rt h1] eqn:Hrun.
      exists rt, h1. split; [done|]. by eapply to_table_frame. }
  destruct Htable as (rt & h1 & -> & Hh1).
  assert (Hkeep : ∃ this', h1 !! self = Some this' ∧
            domain this' = domain this ∧
            representation this' = representation this).
  { destruct Hh1 as [->|[t ->]]; [by exists this|].
    exists (with_table this t). by rewrite lookup_insert_eq. }
  assert (Hrest : ∀ l0 that, l0 ≠ self → h !! l0 = Some that →
            h1 !! l0 = Some that).
  { intros l0 that Hne Hl0. destruct Hh1 as [->|[t ->]]; [done|].
    by rewrite lookup_insert_ne. }
  assert (Hdom : ∀ l, h1 !! l = None → h !! l = None).
  { intros l Hl. destruct Hh1 as [->|[t ->]]; [done|].
    destruct (decide (self = l)) as [<-|Hne].
    - by rewrite lookup_insert_eq in Hl.
    - by rewrite lookup_insert_ne in Hl. }
  destruct rt as [tbl|e].
  2:{ intros [= <- <-]. split; [done|]. split; [done|]. discriminate. }
  intros [[-> [e ->]]|[obj [-> ->]]]%fft_wrapper_tail.
  - split; [done|]. split; [done|]. discriminate.
  - pose proof (fresh_unused h1) as Hfresh.
    destruct Hkeep as (this' & Hthis' & Hd & Hr).
    assert (fresh (dom h1) ≠ self) by congruence.
    split; [|split].
    + exists this'. by rewrite lookup_insert_ne.
    + intros l0 that Hne Hl0.
      rewrite lookup_insert_ne; [by apply Hrest|].
      intros <-. apply Hrest in Hl0; [congruence|done].
    + intros l [= <-]. split; [by apply Hdom|]. split; [done|].
      rewrite lookup_insert_eq. by eexists.
Qed.

(** ** Pushforward *)

Lemma elem_of_product_repeat (vector : list Z) (n : nat) (p : list Z) :
  p ∈ product_repeat vector n ↔ length p = n ∧ Forall (λ c, c ∈ vector) p.
Proof.
  revert p. induction n as [|n IH]; intros p; cbn.
  - rewrite list_elem_of_singleton. split.
    + intros ->. split; [done|constructor].
    + intros [Hlen _]. by destruct p.
  - rewrite list_elem_of_In, in_flat_map. split.
    + intros (x & Hx%list_elem_of_In & Hp%list_elem_of_In).
      apply list_elem_of_fmap in Hp as (q & -> & Hq%IH).
      destruct Hq as [Hlen Hall]. split; [cbn; by f_equal|by constructor].
    + intros [Hlen Hall]. destruct p as [|x q]; [discriminate|].
      inversion Hall; subst. exists x.
      split; [by apply list_elem_of_In|].
      apply list_elem_of_In, list_elem_of_fmap. exists q. split; [done|].
      apply IH. split; [by injection Hlen|done].
Qed.

Lemma pushforward_body_step (function : pyfunc V E) (ker : HomLCA)
    (base_ans : list Z) (norm_condition : list Z → bool) extra acc p
    image kernel_element :
  hom_evaluate ker p = Return image →
  matrix_add base_ans image = Return kernel_element →
  pushforward_body function ker base_ans norm_condition extra acc p =
  if norm_condition kernel_element then
    func_in_ker ← fn_call function kernel_element extra;
    Return (add acc func_in_ker)
  else Return acc.
Proof.
  intros Himage Hadd. unfold pushforward_body. cbv zeta.
  rewrite Himage. cbn. rewrite Hadd. cbn.
  by destruct (norm_condition kernel_element).
Qed.

(** The loop of [pushforward], when every call in it returns: the values
    of the old representation at the admitted candidates, added up in the
    order of the enumeration. *)
Lemma for_loop_pushforward_body (function : pyfunc V E) (ker : HomLCA)
    (base_ans : list Z) (norm_condition : list Z → bool) extra
    (candidate : list Z → list Z) (value : list Z → V) ps acc :
  (∀ p, p ∈ ps → ∃ image, hom_evaluate ker p = Return image ∧
                          matrix_add base_ans image = Return (candidate p)) →
  (∀ p, p ∈ ps → norm_condition (candidate p) = true →
        fn_call function (candidate p) extra = Return (value (candidate p))) →
  for_loop (pushforward_body function ker base_ans norm_condition extra)
    acc ps =
  Return (fold_left add
            (map value (filter (λ c, norm_condition c = true)
                          (map candidate ps))) acc).
Proof.
  revert acc. induction ps as [|p ps IH]; intros acc Hcand Hval;
    [reflexivity|].
  cbn [for_loop map].
  destruct (Hcand p) as (image & Himage & Hadd); [by left|].
  rewrite (pushforward_body_step _ _ _ _ _ _ _ _ _ Himage Hadd).
  destruct (norm_condition (candidate p)) eqn:Hnorm.
  - rewrite filter_cons_True by done.
    rewrite (Hval p) by (done || by left). cbn.
    apply IH; intros q Hq; [apply Hcand|apply Hval]; by right.
  - rewrite filter_cons_False by (rewrite Hnorm; discriminate). cbn.
    apply IH; intros q Hq; [apply Hcand|apply Hval]; by right.
Qed.

(** What the new representation of [pushforward] computes at [y]: the sum
    over the combination vectors of the half-open window, from [-8] to [7]
    in every position. *)
Lemma pushforward_representation_sum (function : pyfunc V E)
    (morphism : HomLCA) (norm_condition : list Z → bool) y extra
    (base_ans : list Z) (candidate : list Z → list Z) (value : list Z → V) :
  let d := LCA_length (source (kernel morphism)) in
  solve (A morphism) y (periods (target morphism)) = Return base_ans →
  (∀ c, length c = d → Forall (λ x, -8 ≤ x < 8) c →
        ∃ image, hom_evaluate (kernel morphism) c = Return image ∧
                 matrix_add base_ans image = Return (candidate c)) →
  (∀ c, length c = d → Forall (λ x, -8 ≤ x < 8) c →
        norm_condition (candidate c) = true →
        fn_call function (candidate c) extra = Return (value (candidate c))) →
  pushforward_representation function morphism norm_condition y extra =
  Return (fold_left add
            (map value (filter (λ c, norm_condition c = true)
                          (map candidate (product_repeat (range (-8) 8) d))))
            zero).
Proof.
  intros d Hsolve Hcand Hval. unfold pushforward_representation.
  rewrite Hsolve. cbn.
  assert (Hwin : ∀ c, c ∈ product_repeat (range (-8) 8) d →
            length c = d ∧ Forall (λ x, -8 ≤ x < 8) c).
  { intros c [Hlen Hall]%elem_of_product_repeat. split; [done|].
    eapply Forall_impl; [exact Hall|]. intros x Hx. by apply elem_of_range. }
  apply for_loop_pushforward_body.
  - intros c [Hlen Hall]%Hwin. by apply Hcand.
  - intros c [Hlen Hall]%Hwin. by apply Hval.
Qed.

(** [pushforward] itself: with the morphism's source equal to the domain it
    allocates an instance on the target whose representation is
    [pushforward_representation]; otherwise it raises. *)
Lemma pushforward_general h self this (morphism : HomLCA)
    (norm_condition : option (list Z → bool)) :
  h !! self = Some this →
  (domain this = source morphism →
   ∃ l g,
     run (pushforward self morphism norm_condition) h =
       (Return l, <[l := g]> h) ∧
     h !! l = None ∧
     domain g = target morphism ∧
     ∀ y extra,
       fn_call (representation g) y extra =
       pushforward_representation (representation this) morphism
         (default default_norm_condition norm_condition) y extra) ∧
  (domain this ≠ source morphism →
   run (pushforward self morphism norm_condition) h =
   (Raise DomainMismatch_pushforward, h)).
Proof.
  intros Hself. split.
  - intros Heq. unfold pushforward. step_read Hself.
    rewrite bool_decide_true by done. cbn [negb].
    rewrite run_new_closure.
    eexists _, _. split; [reflexivity|].
    split; [apply fresh_unused|]. split; [reflexivity|].
    intros y extra. by destruct norm_condition.
  - intros Hne. unfold pushforward. step_read Hself.
    rewrite bool_decide_false by done. reflexivity.
Qed.

(** ** Pointwise combination *)

(** [pointwise] on equal domains allocates the instance that combines the two
    representations point by point; on different domains it raises. *)
Lemma pointwise_general h self other this that
    (operator : V → V → outcome V) :
  h !! self = Some this →
  h !! other = Some that →
  (domain this = domain that →
   ∃ l g,
     run (pointwise self other operator) h = (Return l, <[l := g]> h) ∧
     h !! l = None ∧
     domain g = domain this ∧
     ∀ x extra,
       fn_call (representation g) x extra =
       (result_self ← fn_call (representation this) x extra;
        result_other ← fn_call (representation that) x extra;
        operator result_self result_other)) ∧
  (domain this ≠ domain that →
   run (pointwise self other operator) h =
   (Raise DomainMismatch_pointwise, h)).
Proof.
  intros Hself Hother. split.
  - intros Heq. unfold pointwise. step_read Hself. step_read Hother.
    rewrite bool_decide_false by (intros Hne; by apply Hne).
    rewrite run_new_closure.
    eexists _, _. split; [reflexivity|].
    split; [apply fresh_unused|]. split; reflexivity.
  - intros Hne. unfold pointwise. step_read Hself. step_read Hother.
    rewrite bool_decide_true by done. reflexivity.
Qed.

End Properties.

(** * The claims on the scenarios *)

(** C4. The function returned by [transversal] evaluates at [x], with
    [y = epimorphism.evaluate(x)], to the old representation at [y] when
    the rule sends [y] back to [x] coordinate for coordinate, and to the
    default value (0 when none is given) otherwise; for [f(x) = sum(x)**2]
    on [Z_5], the epimorphism from [Z] and the rule of the docstring, the
    samples over -5..5 are 0,0,0,9,16,0,1,4,0,0,0. *)
Theorem transversal_section {V E : Type} `{!Numeric V} `{!Externals V E}
    (h : gmap positive (Function V E)) (self : positive)
    (this : Function V E) (epimorphism : HomLCA)
    (transversal_rule : list Z → option (list Z)) (default : option V) :
  h !! self = Some this →
  (∃ l g,
     run (transversal self epimorphism transversal_rule default) h =
       (Return l, <[l := g]> h) ∧
     h !! l = None ∧
     domain g = source epimorphism ∧
     (∀ x y extra, hom_evaluate epimorphism x = Return y →
        (transversal_rule y = Some x →
         fn_call (representation g) x extra =
         fn_call (representation this) y extra) ∧
        (transversal_rule y ≠ Some x →
         fn_call (representation g) x extra =
         Return (from_option id zero default))) ∧
     (∀ x extra, length x = LCA_length (source epimorphism) →
        evaluate g (List x) extra =
        fn_call (representation g)
          (project_element (source epimorphism) x) extra)) ∧
  (∃ l g,
     run (transversal 1%positive epimorphism_Z_Z5 transversal_rule_Z5 None)
       {[1%positive := f_on_Zn]} =
       (Return l, <[l := g]> {[1%positive := f_on_Zn]}) ∧
     sample g (map Num (range (-5) 6)) no_extra =
     Return [0; 0; 0; 9; 16; 0; 1; 4; 0; 0; 0]).
Proof.
  intros Hself. split.
  - destruct (transversal_general h self this epimorphism transversal_rule
                default Hself) as (l & g & Hrun & Hnew & Hdom & Hcall).
    exists l, g. split; [exact Hrun|]. split; [exact Hnew|].
    split; [exact Hdom|]. split; [exact Hcall|].
    intros x extra Hlen. rewrite <- Hdom in *. by apply evaluate_list.
  - eexists _, _. split; [reflexivity|]. vm_compute. reflexivity.
Qed.

Lemma transversal_section_witness :
  ({[1%positive := f_on_Zn]} : gmap positive (Function Z unit)) !! 1%positive
    = Some f_on_Zn ∧
  ∃ l g,
    run (transversal 1%positive epimorphism_Z_Z5 transversal_rule_Z5 None)
      {[1%positive := f_on_Zn]} =
      (Return l, <[l := g]> {[1%positive := f_on_Zn]}) ∧
    fn_call (representation g) [-2] no_extra = Return 9 ∧
    fn_call (representation g) [3] no_extra = Return 0.
Proof.
  assert (Hself : ({[1%positive := f_on_Zn]}
                     : gmap positive (Function Z unit)) !! 1%positive
                  = Some f_on_Zn) by reflexivity.
  split; [exact Hself|].
  destruct (transversal_section {[1%positive := f_on_Zn]} 1%positive f_on_Zn
              epimorphism_Z_Z5 transversal_rule_Z5 None Hself)
    as [(l & g & Hrun & _ & _ & Hg & _) _].
  exists l, g. split; [exact Hrun|]. split.
  - rewrite (proj1 (Hg [-2] [3] no_extra eq_refl) eq_refl). reflexivity.
  - rewrite (proj2 (Hg [3] [3] no_extra eq_refl)); [reflexivity|].
    vm_compute. discriminate.
Defined.

(** C1. The pushforward of the constant function 1 on [Z + Z] along the
    projection onto the first coordinate, at the point 0 and with the
    default parameters: the loop runs over [range(-8, 8)], so the
    combination 8 is left out although its candidate (0, 8) has L1-norm 8;
    the code returns 16 where the sum over the closed window from -8 to 8
    is 17. *)
Theorem pushforward_window_is_half_open :
  ∃ l g,
    run (pushforward 1%positive first_coordinate None)
      {[1%positive := one_on_Z2]} =
      (Return l, <[l := g]> {[1%positive := one_on_Z2]}) ∧
    evaluate g (List [0]) no_extra = Return 16 ∧
    pushforward_representation_closed_window (representation one_on_Z2)
      first_coordinate default_norm_condition [0] no_extra = Return 17 ∧
    solve (A first_coordinate) [0] (periods (target first_coordinate)) =
      Return [0; 0] ∧
    hom_evaluate (kernel first_coordinate) [8] = Return [0; 8] ∧
    default_norm_condition [0; 8] = true ∧
    [8] ∉ product_repeat (range (-8) 8)
            (LCA_length (source (kernel first_coordinate))).
Proof.
  eexists _, _. split; [reflexivity|].
  split; [vm_compute; reflexivity|]. split; [vm_compute; reflexivity|].
  split; [reflexivity|]. split; [reflexivity|]. split; [reflexivity|].
  intros [_ Hall]%elem_of_product_repeat.
  inversion Hall as [|x xs Hx _]; subst.
  apply elem_of_range in Hx. lia.
Qed.

(** C3. [dft()] and [idft()] of a function on [Z], a discrete domain whose
    period is 0: the call comes back with the [ValueError] instance as its
    value; nothing is raised and the heap is as before. *)
Theorem dft_returns_the_error {V E : Type} `{!Numeric V} `{!Externals V E}
    (f : pyfunc V E) (self : positive) :
  let h : gmap positive (Function V E) :=
    {[self := closure_object f (LCA_of [0])]} in
  _discrete_periodic_domain (LCA_of [0]) = false ∧
  run (dft self None) h = (Return (ExceptionObj UnsupportedDomain), h) ∧
  run (idft self None) h = (Return (ExceptionObj UnsupportedDomain), h).
Proof.
  intros h. split; [reflexivity|].
  split;
    apply (fft_wrapper_error_object h self (closure_object f (LCA_of [0])));
    solve [apply lookup_singleton_eq | reflexivity].
Qed.

(** C8. [dft()] and [idft()] of a function on [Z_5 + Z]: what the call
    hands back is the [ValueError] instance, not a reference to a new
    [Function] instance. *)
Theorem dft_result_is_not_a_function {V E : Type} `{!Numeric V}
    `{!Externals V E} (f : pyfunc V E) (self : positive) :
  let h : gmap positive (Function V E) :=
    {[self := closure_object f (LCA_of [5; 0])]} in
  run (dft self None) h = (Return (ExceptionObj UnsupportedDomain), h) ∧
  run (idft self None) h = (Return (ExceptionObj UnsupportedDomain), h) ∧
  ∀ l h', run (dft self None) h ≠ (Return (FunctionRef l), h') ∧
          run (idft self None) h ≠ (Return (FunctionRef l), h').
Proof.
  intros h.
  assert (Hrun : ∀ func_to_wrap,
            run (_fft_wrapper self func_to_wrap None) h =
            (Return (ExceptionObj UnsupportedDomain), h)).
  { intros func_to_wrap.
    apply (fft_wrapper_error_object h self
             (closure_object f (LCA_of [5; 0])));
      solve [apply lookup_singleton_eq | reflexivity]. }
  unfold dft, idft. rewrite !Hrun.
  split; [reflexivity|]. split; [reflexivity|].
  intros l h'. split; discriminate.
Qed.

(** * The general claims at concrete instances *)

Lemma pullback_composition_witness :
  ({[1%positive := f_on_Zn]} : gmap positive (Function Z unit)) !! 1%positive
    = Some f_on_Zn ∧
  (∃ l g,
     run (pullback 1%positive epimorphism_Z_Z5) {[1%positive := f_on_Zn]} =
       (Return l, <[l := g]> {[1%positive := f_on_Zn]}) ∧
     domain g = LCA_of [0] ∧
     fn_call (representation g) [8] no_extra = Return 9) ∧
  (∃ l g,
     run (pullback 1%positive (identity_morphism (LCA_of [5])))
       {[1%positive := f_on_Zn]} =
       (Return l, <[l := g]> {[1%positive := f_on_Zn]}) ∧
     sample g (map Num (range (-7) 9)) no_extra =
     sample f_on_Zn (map Num (range (-7) 9)) no_extra ∧
     sample f_on_Zn (map Num (range (-7) 9)) no_extra =
     Return [9; 16; 0; 1; 4; 9; 16; 0; 1; 4; 9; 16; 0; 1; 4; 9]) ∧
  hom_evaluate (identity_morphism (LCA_of [5])) [7] = Return [2] ∧
  run (pullback 1%positive first_coordinate) {[1%positive := f_on_Zn]} =
    (Raise DomainMismatch_pullback, {[1%positive := f_on_Zn]}).
Proof.
  assert (Hself : ({[1%positive := f_on_Zn]}
                     : gmap positive (Function Z unit)) !! 1%positive
                  = Some f_on_Zn) by reflexivity.
  split; [exact Hself|]. split; [|split; [|split]].
  - destruct (proj1 (pullback_composition _ _ _ epimorphism_Z_Z5 Hself)
                eq_refl) as (l & g & Hrun & _ & Hdom & Hcall & _).
    exists l, g. split; [exact Hrun|]. split; [exact Hdom|].
    rewrite Hcall. reflexivity.
  - destruct (proj2 (proj2 (pullback_composition _ _ _ epimorphism_Z_Z5
                              Hself)))
      as (l & g & Hrun & _ & _ & Hsample).
    exists l, g. split; [exact Hrun|]. split; [apply Hsample|reflexivity].
  - reflexivity.
  - apply (proj1 (proj2 (pullback_composition _ _ _ first_coordinate Hself))).
    discriminate.
Defined.

Lemma to_table_memoized_witness :
  ({[1%positive := f_on_Zn]} : gmap positive (Function Z unit)) !! 1%positive
    = Some f_on_Zn ∧
  _discrete_periodic_domain (domain f_on_Zn) = true ∧
  table f_on_Zn = None ∧
  let h' := <[1%positive := with_table f_on_Zn squares_table]>
              ({[1%positive := f_on_Zn]} : gmap positive (Function Z unit)) in
  run (to_table 1%positive no_extra) {[1%positive := f_on_Zn]} =
    (Return (Some squares_table), h') ∧
  run (to_table 1%positive no_extra) h' = (Return (Some squares_table), h').
Proof.
  assert (Hself : ({[1%positive := f_on_Zn]}
                     : gmap positive (Function Z unit)) !! 1%positive
                  = Some f_on_Zn) by reflexivity.
  split; [exact Hself|]. split; [reflexivity|]. split; [reflexivity|].
  destruct (proj2 (to_table_memoized _ _ _ no_extra Hself) eq_refl)
    as [_ Hfirst].
  destruct (Hfirst eq_refl) as [_ Hmat].
  destruct (Hmat squares_table eq_refl) as (Hrun & _ & _ & Hagain).
  split; [exact Hrun|apply Hagain].
Defined.

Lemma evaluate_scalar_and_length_witness :
  (LCA_length (domain f_on_Zn) = 1%nat ∧
   evaluate f_on_Zn (Num 7) no_extra = evaluate f_on_Zn (List [7]) no_extra) ∧
  (length [1; 2] ≠ LCA_length (domain f_on_Zn) ∧
   evaluate f_on_Zn (List [1; 2]) no_extra = Raise ArgumentLengthMismatch).
Proof.
  destruct (evaluate_scalar_and_length f_on_Zn no_extra) as [Hnum Hlen].
  split; split.
  - reflexivity.
  - apply (Hnum eq_refl).
  - discriminate.
  - apply Hlen. discriminate.
Defined.

Lemma shift_truncates_witness :
  ({[1%positive := sum_on_Z2]} : gmap positive (Function Z unit))
    !! 1%positive = Some sum_on_Z2 ∧
  ∃ l g,
    run (shift 1%positive [5]) {[1%positive := sum_on_Z2]} =
      (Return l, <[l := g]> {[1%positive := sum_on_Z2]}) ∧
    evaluate g (List [7; 9]) no_extra = Return 2.
Proof.
  assert (Hself : ({[1%positive := sum_on_Z2]}
                     : gmap positive (Function Z unit)) !! 1%positive
                  = Some sum_on_Z2) by reflexivity.
  split; [exact Hself|].
  destruct (shift_truncates _ _ _ [5] Hself)
    as (l & g & Hrun & _ & _ & _ & Heval).
  exists l, g. split; [exact Hrun|].
  rewrite (Heval [7; 9] no_extra eq_refl). reflexivity.
Defined.

Lemma copy_drops_table_witness :
  ({[1%positive := table_on_Z5]} : gmap positive (Function Z unit))
    !! 1%positive = Some table_on_Z5 ∧
  __init__ (TableArg squares_table) (LCA_of [5]) = Return table_on_Z5 ∧
  ∃ l g,
    run (copy 1%positive) {[1%positive := table_on_Z5]} =
      (Return l, <[l := g]> {[1%positive := table_on_Z5]}) ∧
    table table_on_Z5 = Some squares_table ∧
    table g = None ∧
    evaluate g (List [3]) no_extra = Return 9 ∧
    evaluate table_on_Z5 (List [3]) no_extra = Return 9.
Proof.
  assert (Hself : ({[1%positive := table_on_Z5]}
                     : gmap positive (Function Z unit)) !! 1%positive
                  = Some table_on_Z5) by reflexivity.
  assert (Hinit : __init__ (TableArg squares_table) (LCA_of [5])
                  = Return table_on_Z5) by reflexivity.
  split; [exact Hself|]. split; [exact Hinit|].
  destruct (copy_drops_table _ _ _ _ _ Hself Hinit)
    as (l & g & Hrun & _ & Htable & Hnone & _ & _ & Heval & _).
  exists l, g. split; [exact Hrun|]. split; [exact Htable|].
  split; [exact Hnone|]. split; [|reflexivity].
  rewrite Heval; [reflexivity|]. intros x extra. reflexivity.
Defined.

(** * Further properties of the code *)

Section Further.
Context {V E : Type} `{!Numeric V} `{!Externals V E}.

Implicit Types (h : gmap positive (Function V E)).
Implicit Types (this that g : Function V E) (self other l : positive).
Implicit Types (extra : Extra E) (f : pyfunc V E).

Ltac step_read Hself :=
  rewrite run_bind, (run_read _ _ _ Hself).

(** ** Sampling and evaluation *)

(** X1. [sample] keeps length and order: when it returns, the i-th value is
    [evaluate] at the i-th element; it returns as soon as [evaluate] returns
    on every element; and it raises the exception of the first element at
    which [evaluate] raises. *)
Theorem sample_keeps_order this extra :
  (∀ points values, sample this points extra = Return values →
     length values = length points ∧
     ∀ i p, points !! i = Some p →
       ∃ v, values !! i = Some v ∧ evaluate this p extra = Return v) ∧
  (∀ points, (∀ p, p ∈ points → ∃ v, evaluate this p extra = Return v) →
     ∃ values, sample this points extra = Return values) ∧
  (∀ before p after e,
     (∀ q, q ∈ before → ∃ v, evaluate this q extra = Return v) →
     evaluate this p extra = Raise e →
     sample this (before ++ p :: after) extra = Raise e).
Proof.
  split; [|split].
  - intros points values Hs. unfold sample in Hs.
    apply comprehension_Forall2 in Hs. split.
    + symmetry. by eapply Forall2_length.
    + intros i p Hp.
      destruct (Forall2_lookup_l _ _ _ _ _ Hs Hp) as (v & Hv & Hev).
      by exists v.
  - intros points Hall. by apply comprehension_returns.
  - intros before p after e Hbefore Hp. unfold sample.
    induction before as [|q before IH]; cbn.
    + by rewrite Hp.
    + destruct (Hbefore q) as [v ->]; [by left|]. cbn.
      rewrite IH; [done|]. intros q' Hq'. apply Hbefore. by right.
Qed.

(** X2. On a bare number [evaluate] raises the list error when the domain
    has more than one factor and a type error (a number has no length) when
    it has none; on the empty list and a domain without factors it calls
    the representation on the empty list. *)
Theorem evaluate_number_edges this extra :
  ((1 < LCA_length (domain this))%nat →
   ∀ s, evaluate this (Num s) extra =
        Raise (ValueError "Argument to function must be list.")) ∧
  (LCA_length (domain this) = 0%nat →
   (∀ s, ∃ msg, evaluate this (Num s) extra = Raise (TypeError msg)) ∧
   evaluate this (List []) extra = fn_call (representation this) [] extra).
Proof.
  split.
  - intros Hdim s. unfold evaluate. by rewrite bool_decide_true.
  - intros Hdim. split.
    + intros s. unfold evaluate. rewrite Hdim. cbn. by eexists.
    + rewrite evaluate_list by (by rewrite Hdim). by destruct (domain this) as [[|] [|]].
Qed.

(** ** Pointwise combination *)

(** X3. [pointwise] of two instances on equal domains (the same instance
    twice is allowed) gives a new instance on that domain which evaluates, at
    every argument, to the operator applied to the two evaluations; on
    different domains it raises and allocates nothing. *)
Theorem pointwise_evaluates h self other this that
    (operator : V → V → outcome V) :
  h !! self = Some this →
  h !! other = Some that →
  (domain this = domain that →
   ∃ l g,
     run (pointwise self other operator) h = (Return l, <[l := g]> h) ∧
     h !! l = None ∧
     domain g = domain this ∧
     ∀ p extra,
       evaluate g p extra =
       (result_self ← evaluate this p extra;
        result_other ← evaluate that p extra;
        operator result_self result_other)) ∧
  (domain this ≠ domain that →
   run (pointwise self other operator) h =
   (Raise (ValueError "Domains must be the same."), h)).
Proof.
  intros Hself Hother. split.
  - intros Heq. unfold pointwise. step_read Hself. step_read Hother.
    rewrite bool_decide_false by (intros Hne; by apply Hne).
    rewrite run_new_closure.
    eexists _, _. split; [reflexivity|].
    split; [apply fresh_unused|]. split; [reflexivity|].
    intros p extra. unfold evaluate.
    cbn [domain representation closure_object fn_call]. rewrite <- Heq.
    destruct (bool_decide (1 < LCA_length (domain this))%nat);
      destruct p as [x|xs]; cbn;
      repeat (case_bool_decide; cbn); try reflexivity;
      by destruct (fn_call (representation this) _ extra).
  - intros Hne. unfold pointwise. step_read Hself. step_read Hother.
    rewrite bool_decide_true by done. reflexivity.
Qed.

(** ** Pushforward *)

Lemma for_loop_ext {S X : Type} (body1 body2 : S → X → outcome S) s xs :
  (∀ s' x, x ∈ xs → body1 s' x = body2 s' x) →
  for_loop body1 s xs = for_loop body2 s xs.
Proof.
  revert s. induction xs as [|x xs IH]; intros s Hext; [reflexivity|].
  cbn. rewrite Hext by (by left).
  destruct (body2 s x) as [s'|e]; [|reflexivity].
  cbn. apply IH. intros s'' x' Hx'. apply Hext. by right.
Qed.

Lemma pushforward_representation_ext (f1 f2 : pyfunc V E)
    (morphism : HomLCA) (norm_condition : list Z → bool) y extra :
  (∀ x, norm_condition x = true → fn_call f1 x extra = fn_call f2 x extra) →
  pushforward_representation f1 morphism norm_condition y extra =
  pushforward_representation f2 morphism norm_condition y extra.
Proof.
  intros Hagree. unfold pushforward_representation.
  destruct (solve _ _ _) as [base_ans|e]; [|reflexivity]. cbn.
  apply for_loop_ext. intros acc p _. unfold pushforward_body. cbv zeta.
  destruct (hom_evaluate _ p) as [image|e]; [|reflexivity]. cbn.
  destruct (matrix_add base_ans image) as [kernel_element|e];
    [|reflexivity]. cbn.
  destruct (norm_condition kernel_element) eqn:Hnorm; [|reflexivity].
  cbn. by rewrite Hagree.
Qed.

(** X4. The admissibility filter of [pushforward] comes before the call of
    the wrapped representation: the pushed-forward function is the same for
    every representation that agrees with the original one on the admitted
    candidates, whatever it does (or raises) on the rejected ones. *)
Theorem pushforward_filter_short_circuits h self this (morphism : HomLCA)
    (norm_condition : list Z → bool) :
  h !! self = Some this →
  domain this = source morphism →
  ∃ l g,
    run (pushforward self morphism (Some norm_condition)) h =
      (Return l, <[l := g]> h) ∧
    ∀ (other_representation : pyfunc V E) y extra,
      (∀ x, norm_condition x = true →
            fn_call other_representation x extra =
            fn_call (representation this) x extra) →
      fn_call (representation g) y extra =
      pushforward_representation other_representation morphism
        norm_condition y extra.
Proof.
  intros Hself Hdom.
  destruct (proj1 (pushforward_general h self this morphism
                     (Some norm_condition) Hself) Hdom)
    as (l & g & Hrun & _ & _ & Hcall).
  exists l, g. split; [exact Hrun|].
  intros other_representation y extra Hagree. rewrite Hcall. cbn.
  apply pushforward_representation_ext. intros x Hx. symmetry.
  by apply Hagree.
Qed.

(** X5. When the kernel morphism has a source without factors the loop of
    [pushforward] runs once, on the empty combination: the value at [y] is
    0 plus the representation at the one candidate when the candidate is
    admitted, and 0 when it is rejected. *)
Theorem pushforward_trivial_kernel (function : pyfunc V E)
    (morphism : HomLCA) (norm_condition : list Z → bool) y extra
    (base_ans image candidate : list Z) :
  LCA_length (source (kernel morphism)) = 0%nat →
  solve (A morphism) y (periods (target morphism)) = Return base_ans →
  hom_evaluate (kernel morphism) [] = Return image →
  matrix_add base_ans image = Return candidate →
  pushforward_representation function morphism norm_condition y extra =
  if norm_condition candidate then
    value ← fn_call function candidate extra; Return (add zero value)
  else Return zero.
Proof.
  intros Hdim Hsolve Himage Hadd. unfold pushforward_representation.
  rewrite Hsolve, Hdim. cbn.
  rewrite (pushforward_body_step _ _ _ _ _ _ _ _ _ Himage Hadd).
  destruct (norm_condition candidate); [|reflexivity].
  by destruct (fn_call function candidate extra).
Qed.

(** X6. [pushforward] raises, and allocates nothing, when the source of the
    morphism is not the domain of the function; otherwise it returns a new
    instance on the target, and evaluating it at a point for which the
    solver raises gives that very exception, before any kernel element or
    any value of the representation is computed. *)
Theorem pushforward_errors h self this (morphism : HomLCA)
    (norm_condition : option (list Z → bool)) :
  h !! self = Some this →
  (domain this ≠ source morphism →
   run (pushforward self morphism norm_condition) h =
   (Raise (ValueError "Source of morphism must equal domain of function."),
    h)) ∧
  (domain this = source morphism →
   ∃ l g,
     run (pushforward self morphism norm_condition) h =
       (Return l, <[l := g]> h) ∧
     h !! l = None ∧
     domain g = target morphism ∧
     table g = None ∧
     ∀ y extra e,
       solve (A morphism) y (periods (target morphism)) = Raise e →
       fn_call (representation g) y extra = Raise e).
Proof.
  intros Hself. split.
  - by apply pushforward_general.
  - intros Hdom. unfold pushforward. step_read Hself.
    rewrite bool_decide_true by done. cbn [negb].
    rewrite run_new_closure.
    eexists _, _. split; [reflexivity|].
    split; [apply fresh_unused|]. split; [reflexivity|].
    split; [reflexivity|].
    intros y extra e Hsolve. cbn. unfold pushforward_representation.
    by rewrite Hsolve.
Qed.

(** ** The table and its cache *)

(** X7. [to_table] writes nothing but the table attribute of its receiver,
    and that only once: domain and representation of the receiver and every
    other instance stay as they are, a table already stored is never
    replaced, a table handed back is the one stored afterwards, and when the
    call raises the heap is unchanged (no partial table is kept). *)
Theorem to_table_writes_once h self this extra r h' :
  h !! self = Some this →
  run (to_table self extra) h = (r, h') →
  (∃ this', h' !! self = Some this' ∧
            domain this' = domain this ∧
            representation this' = representation this ∧
            (∀ t, table this = Some t → table this' = Some t) ∧
            (∀ t, r = Return (Some t) → table this' = Some t)) ∧
  (∀ l, l ≠ self → h' !! l = h !! l) ∧
  (∀ e, r = Raise e → h' = h).
Proof.
  intros Hself.
  destruct (_discrete_periodic_domain (domain this)) eqn:Hdp.
  - destruct (table this) as [t0|] eqn:Ht.
    + rewrite (run_to_table_cached _ _ _ _ _ Hself Hdp Ht).
      intros [= <- <-]. split; [exists this; split_and!|split_and!];
        try done.
      all: by intros t [= <-].
    + rewrite (run_to_table_first _ _ _ _ Hself Hdp Ht).
      destruct (function_to_table _ _ _) as [t|e]; intros [= <- <-].
      * split; [exists (with_table this t); split_and!|split_and!];
          try done.
        -- apply lookup_insert_eq.
        -- by intros t' [= <-].
        -- intros l Hne. by rewrite lookup_insert_ne.
      * split; [exists this; split_and!|split_and!]; done.
  - rewrite (run_to_table_other _ _ _ _ Hself Hdp).
    intros [= <- <-]. split; [exists this; split_and!|split_and!]; done.
Qed.

(** X8. An instance built from a table hands that very table back from
    [to_table], for any arguments, without evaluating anything and without
    writing to the heap. *)
Theorem table_instance_to_table h self this (t : Table V) (G : LCA) extra :
  __init__ (TableArg t) G = Return this →
  h !! self = Some this →
  run (to_table self extra) h = (Return (Some t), h).
Proof.
  intros (Hdp & HG & Ht)%init_table_inv Hself.
  apply (run_to_table_cached h self this extra t Hself); [|exact Ht].
  by rewrite HG.
Qed.

(** *** Soundness of the heap *)

Lemma preserves_bind {T U : Type} (inv : gmap positive (Function V E) → Prop)
    (m : M T) (k : T → M U) :
  preserves inv m → (∀ a, preserves inv (k a)) → preserves inv (m ≫= k).
Proof.
  intros Hm Hk h r h' Hinv. rewrite run_bind.
  destruct (run m h) as [[a|e] h1] eqn:Hrun.
  - intros Hrun'. eapply Hk; [|exact Hrun']. by eapply Hm.
  - intros [= <- <-]. by eapply Hm.
Qed.

Lemma preserves_pure {T : Type} (inv : gmap positive (Function V E) → Prop)
    (m : M T) :
  (∀ h, snd (run m h) = h) → preserves inv m.
Proof.
  intros Hpure h r h' Hinv Hrun. specialize (Hpure h).
  rewrite Hrun in Hpure. cbn in Hpure. by subst.
Qed.

Lemma preserves_read_then {T : Type}
    (inv : gmap positive (Function V E) → Prop) self
    (k : Function V E → M T) :
  (∀ this, preserves inv (k this)) → preserves inv (read self ≫= k).
Proof.
  intros Hk. apply preserves_bind; [|exact Hk].
  apply preserves_pure. intros h. unfold read. cbn. by destruct (h !! self).
Qed.

Lemma init_sound (rep : representation_arg V E) (G : LCA) this :
  __init__ rep G = Return this → table_on_periodic_domain this.
Proof.
  destruct rep as [f|t].
  - intros [= <-] [t Ht]. discriminate.
  - intros (Hdp & HG & Ht)%init_table_inv _. by rewrite HG.
Qed.

Lemma preserves_new (rep : representation_arg V E) (G : LCA) :
  preserves sound_heap (new rep G).
Proof.
  intros h r h' Hinv. unfold new. rewrite run_bind. cbn [lift run].
  destruct (__init__ rep G) as [obj|e] eqn:Hinit; [|by intros [= <- <-]].
  cbn. intros [= <- <-] l this.
  destruct (decide (fresh (dom h) = l)) as [<-|Hne].
  - rewrite lookup_insert_eq. intros [= <-]. by eapply init_sound.
  - rewrite lookup_insert_ne by done. apply Hinv.
Qed.

Lemma preserves_to_table self extra :
  preserves (V := V) (E := E) sound_heap (to_table self extra).
Proof.
  intros h r h' Hinv Hrun. destruct (h !! self) as [this|] eqn:Hself.
  - destruct (_discrete_periodic_domain (domain this)) eqn:Hdp.
    + intros l that.
      destruct (to_table_frame _ _ _ _ _ _ Hself Hrun) as [->|[t ->]];
        [apply Hinv|].
      destruct (decide (self = l)) as [<-|Hne].
      * rewrite lookup_insert_eq. by intros [= <-] _.
      * rewrite lookup_insert_ne by done. apply Hinv.
    + rewrite (run_to_table_other _ _ _ _ Hself Hdp) in Hrun.
      by injection Hrun as <- <-.
  - unfold to_table in Hrun. rewrite run_bind in Hrun. unfold read in Hrun.
    cbn in Hrun. rewrite Hself in Hrun. by injection Hrun as <- <-.
Qed.

Lemma preserves_raise {T : Type} (inv : gmap positive (Function V E) → Prop)
    (e : exn) :
  preserves inv (raise (T := T) e).
Proof. by apply preserves_pure. Qed.

Lemma preserves_lift {T : Type} (inv : gmap positive (Function V E) → Prop)
    (o : outcome T) :
  preserves inv (lift o).
Proof. by apply preserves_pure. Qed.

Lemma preserves_mret {T : Type} (inv : gmap positive (Function V E) → Prop)
    (a : T) :
  preserves inv (mret a).
Proof. by apply preserves_pure. Qed.

Create HintDb sound.
#[local] Hint Resolve preserves_new preserves_to_table preserves_raise
  preserves_lift preserves_mret : sound.

(** X9. Every method keeps the heap sound: if each instance that carries a
    table lives on a fully discrete domain with positive periods before the
    call, the same holds after it, whether [to_table], one of the six
    transforms, [dft] or [idft] was called and whether it returned or
    raised. *)
Theorem methods_keep_heap_sound self :
  (∀ extra, preserves (V := V) (E := E) sound_heap (to_table self extra)) ∧
  (∀ m, transform_call (V := V) (E := E) self m → preserves sound_heap m) ∧
  (∀ func_type,
     preserves (V := V) (E := E) sound_heap (dft self func_type)) ∧
  (∀ func_type,
     preserves (V := V) (E := E) sound_heap (idft self func_type)).
Proof.
  assert (Hfft : ∀ func_to_wrap func_type,
            preserves (V := V) (E := E) sound_heap
              (_fft_wrapper self func_to_wrap func_type)).
  { intros func_to_wrap func_type. unfold _fft_wrapper.
    apply preserves_read_then. intros this. cbv zeta.
    case_match; [auto with sound|].
    apply preserves_bind.
    { destruct func_type as [name|]; [|auto with sound].
      case_match; auto with sound. }
    intros tbl. case_match; [|auto with sound].
    apply preserves_bind; [auto with sound|]. intros tc.
    apply preserves_bind.
    { repeat case_match; auto with sound;
        (apply preserves_bind; [auto with sound|]; intros n;
         auto with sound). }
    intros tc'. apply preserves_bind; [auto with sound|].
    intros l. auto with sound. }
  split; [intros extra; apply preserves_to_table|].
  split; [|split; intros func_type; apply Hfft].
  intros m [list_shift|morphism|morphism norm_condition
            |epimorphism transversal_rule default|other operator|].
  - unfold shift. apply preserves_read_then. intros this.
    auto with sound.
  - unfold pullback. apply preserves_read_then. intros this.
    case_match; auto with sound.
  - unfold pushforward. apply preserves_read_then. intros this.
    case_match; auto with sound.
  - unfold transversal. apply preserves_read_then. intros this.
    auto with sound.
  - unfold pointwise. apply preserves_read_then. intros this.
    apply preserves_read_then. intros that.
    case_match; auto with sound.
  - unfold copy. apply preserves_read_then. intros this.
    auto with sound.
Qed.

(** *** From a closure to a table and back *)

Lemma project_coordinates_in_range (xs ps : list Z) (ds : list bool) :
  length xs = length ps →
  Forall (λ p, 0 < p) ps →
  forallb (λ d : bool, d) ds = true →
  in_range (project_coordinates xs ps ds) ps.
Proof.
  intros Hlen Hpos. revert xs ds Hlen.
  induction Hpos as [|p ps Hp Hps IH]; intros [|x xs] ds Hlen Hds;
    try discriminate.
  - constructor.
  - assert (Hmod : 0 ≤ x mod p < p) by (apply Z.mod_pos_bound; lia).
    assert (Hp' : (0 <? p) = true) by (apply Z.ltb_lt; lia).
    destruct ds as [|d ds]; cbn in *.
    + constructor.
      * unfold project_coordinate. by rewrite Hp'.
      * apply IH; [congruence|done].
    + apply andb_prop in Hds as [-> Hds]. constructor.
      * unfold project_coordinate. by rewrite Hp'.
      * apply IH; [congruence|done].
Qed.

Lemma project_element_in_range (G : LCA) (xs : list Z) :
  _discrete_periodic_domain G = true →
  length xs = LCA_length G →
  in_range (project_element G xs) (periods G).
Proof.
  intros Hdp Hlen. apply project_coordinates_in_range; [done| |].
  - by apply discrete_periodic_positive.
  - unfold _discrete_periodic_domain in Hdp.
    by apply andb_prop in Hdp as [HFGA _].
Qed.

(** X10. Materialise and rebuild: when the nested-list helpers index in
    range and accept a table of the shape of the periods, the table that
    [to_table] computes for a closure instance on a fully discrete domain
    with positive periods can be given to the constructor, and the instance
    so built evaluates as the original at every point of the right length
    (reduced modulo the periods). *)
Theorem table_round_trip this (t : Table V) :
  (∀ t' point v, table_index t' point = Some v →
                 call_nested_list t' point = Return v) →
  (∀ t' dims, has_shape t' dims = true → verify_dims_list t' dims = true) →
  _discrete_periodic_domain (domain this) = true →
  function_to_table (representation this) (periods (domain this)) no_extra
    = Return t →
  ∃ that,
    __init__ (TableArg t) (domain this) = Return that ∧
    table that = Some t ∧
    ∀ xs, length xs = LCA_length (domain this) →
      evaluate that (List xs) no_extra = evaluate this (List xs) no_extra.
Proof.
  intros Hindex Hverify Hdp Ht.
  assert (Hshape : has_shape t (periods (domain this)) = true).
  { eapply function_to_table_rec_shape;
      [by apply discrete_periodic_positive|exact Ht]. }
  unfold __init__. rewrite Hdp, (Hverify _ _ Hshape). cbn [negb].
  eexists. split; [reflexivity|]. split; [reflexivity|].
  intros xs Hlen. rewrite !evaluate_list by done. cbn.
  destruct (function_to_table_rec_index _ _ _ Ht
              (project_element (domain this) xs)) as (v & Hv & Hidx).
  { by apply project_element_in_range. }
  by rewrite Hv, (Hindex _ _ _ Hidx).
Qed.

(** ** The DFT wrapper, further *)


Lemma reduce_mul_product (dims : list Z) :
  dims ≠ [] → reduce_mul dims = Return (product dims).
Proof.
  destruct dims as [|d ds]; [done|]. intros _. cbn. f_equal.
  unfold product. cbn. revert d.
  induction ds as [|x ds IH]; intros d; cbn; [lia|].
  rewrite IH. lia.
Qed.

(** What the wrapper does on the way that succeeds. *)
Lemma fft_wrapper_success h h1 self this (func_to_wrap : string)
    (function_wrapped : option (Table V) → outcome (Table V))
    (t table_computed : Table V) (scale : V → V) :
  h !! self = Some this →
  _discrete_periodic_domain (domain this) = true →
  periods (domain this) ≠ [] →
  run (to_table self no_extra) h = (Return (Some t), h1) →
  np_fft func_to_wrap = Some function_wrapped →
  function_wrapped (Some t) = Return table_computed →
  (func_to_wrap = "fftn"%string ∧
     scale = (λ v, div_int v (product (periods (domain this)))) ∨
   func_to_wrap = "ifftn"%string ∧
     scale = (λ v, mul_int v (product (periods (domain this))))) →
  verify_dims_list (table_map scale table_computed) (periods (domain this))
    = true →
  ∃ l g,
    run (_fft_wrapper self func_to_wrap None) h =
      (Return (FunctionRef l), <[l := g]> h1) ∧
    h1 !! l = None ∧
    domain g = domain this ∧
    table g = Some (table_map scale table_computed) ∧
    ∀ point, fn_call (representation g) point no_extra =
             call_nested_list (table_map scale table_computed) point.
Proof.
  intros Hself Hdp Hdims Htable Hnp Hcall Hscale Hverify.
  unfold _fft_wrapper. step_read Hself.
  assert (Hguard : negb (forallb (λ p, 0 <? p) (periods (domain this)))
                     && is_FGA (domain this) = false).
  { unfold _discrete_periodic_domain in Hdp.
    apply andb_prop in Hdp as [_ ->]. reflexivity. }
  rewrite Hguard, run_bind, Htable, Hnp, run_bind. cbn [lift run].
  rewrite Hcall, run_bind.
  assert (Hscaled :
    run (if bool_decide (func_to_wrap = "fftn"%string)
         then n ← lift (reduce_mul (periods (domain this)));
              mret (table_map (λ v, div_int v n) table_computed)
         else if bool_decide (func_to_wrap = "ifftn"%string)
         then n ← lift (reduce_mul (periods (domain this)));
              mret (table_map (λ v, mul_int v n) table_computed)
         else mret table_computed) h1 =
    (Return (table_map scale table_computed), h1)).
  { destruct Hscale as [[-> ->]|[-> ->]].
    - rewrite bool_decide_true by done. rewrite run_bind. cbn [lift run].
      by rewrite (reduce_mul_product _ Hdims).
    - rewrite bool_decide_false by done. rewrite bool_decide_true by done.
      rewrite run_bind. cbn [lift run].
      by rewrite (reduce_mul_product _ Hdims). }
  rewrite Hscaled. unfold new. rewrite !run_bind. cbn [lift run].
  unfold __init__. rewrite Hdp, Hverify. cbn.
  eexists _, _. split; [reflexivity|].
  split; [apply fresh_unused|]. split; [reflexivity|].
  split; reflexivity.
Qed.

(** X12. The scaling of the transform pair: on a fully discrete domain with
    positive periods, [dft()] hands back a new instance whose table is
    numpy's [fftn] of the receiver's table with every entry divided by the
    product of the periods, and [idft()] one whose table is numpy's [ifftn]
    with every entry multiplied by that product; the new instance reads its
    values from that table, and the receiver keeps the table it
    materialised. *)
Theorem dft_idft_scaling h h1 self this
    (function_wrapped : option (Table V) → outcome (Table V))
    (t table_computed : Table V) :
  h !! self = Some this →
  _discrete_periodic_domain (domain this) = true →
  periods (domain this) ≠ [] →
  run (to_table self no_extra) h = (Return (Some t), h1) →
  function_wrapped (Some t) = Return table_computed →
  let N := product (periods (domain this)) in
  (np_fft "fftn" = Some function_wrapped →
   verify_dims_list (table_map (λ v, div_int v N) table_computed)
     (periods (domain this)) = true →
   ∃ l g,
     run (dft self None) h = (Return (FunctionRef l), <[l := g]> h1) ∧
     h1 !! l = None ∧
     domain g = domain this ∧
     table g = Some (table_map (λ v, div_int v N) table_computed)) ∧
  (np_fft "ifftn" = Some function_wrapped →
   verify_dims_list (table_map (λ v, mul_int v N) table_computed)
     (periods (domain this)) = true →
   ∃ l g,
     run (idft self None) h = (Return (FunctionRef l), <[l := g]> h1) ∧
     h1 !! l = None ∧
     domain g = domain this ∧
     table g = Some (table_map (λ v, mul_int v N) table_computed)).
Proof.
  intros Hself Hdp Hdims Htable Hcall N. split; intros Hnp Hverify.
  - destruct (fft_wrapper_success h h1 self this "fftn" function_wrapped t
                table_computed (λ v, div_int v N) Hself Hdp Hdims Htable
                Hnp Hcall) as (l & g & Hrun & Hnew & Hdom & Htab & _);
      [by left|done|].
    by exists l, g.
  - destruct (fft_wrapper_success h h1 self this "ifftn" function_wrapped t
                table_computed (λ v, mul_int v N) Hself Hdp Hdims Htable
                Hnp Hcall) as (l & g & Hrun & Hnew & Hdom & Htab & _);
      [by right|done|].
    by exists l, g.
Qed.

(** X13. [dft] and [idft] leave the receiver's domain and representation,
    and every other instance, as they were, whether they return or raise;
    a [Function] they hand back is at an address that was not in use, so it
    is not the receiver. *)
Theorem dft_idft_frame h self this func_type r h' :
  h !! self = Some this →
  run (dft self func_type) h = (r, h') ∨
  run (idft self func_type) h = (r, h') →
  (∃ this', h' !! self = Some this' ∧ domain this' = domain this ∧
            representation this' = representation this) ∧
  (∀ l0 that, l0 ≠ self → h !! l0 = Some that → h' !! l0 = Some that) ∧
  (∀ l, r = Return (FunctionRef l) →
        h !! l = None ∧ l ≠ self ∧ is_Some (h' !! l)).
Proof.
  intros Hself [Hrun|Hrun]; by eapply fft_wrapper_frame.
Qed.

(** ** How the transforms compose *)

(** X14. Pulling back twice is pulling back along the composite: after
    [f.pullback(phi).pullback(psi)] the heap holds two new instances, and
    the representation of the second sends [x] to the representation of [f]
    at [phi.evaluate(psi.evaluate(x))]. *)
Theorem pullback_twice h self this (phi psi : HomLCA) :
  h !! self = Some this →
  domain this = target phi →
  source phi = target psi →
  ∃ l1 g1 l2 g2,
    run (l1 ← pullback self phi; pullback l1 psi) h =
      (Return l2, <[l2 := g2]> (<[l1 := g1]> h)) ∧
    l1 ≠ self ∧ l2 ≠ self ∧ l1 ≠ l2 ∧
    domain g1 = source phi ∧
    domain g2 = source psi ∧
    ∀ x extra,
      fn_call (representation g2) x extra =
      (y ← hom_evaluate psi x;
       z ← hom_evaluate phi y;
       fn_call (representation this) z extra).
Proof.
  intros Hself Hphi Hpsi. rewrite run_bind.
  unfold pullback at 1. step_read Hself.
  rewrite bool_decide_true by done. cbn [negb].
  rewrite run_new_closure.
  set (l1 := fresh (dom h)). set (g1 := closure_object _ (source phi)).
  assert (Hl1 : (<[l1 := g1]> h) !! l1 = Some g1) by apply lookup_insert_eq.
  unfold pullback. step_read Hl1.
  rewrite bool_decide_true by done. cbn [negb].
  rewrite run_new_closure.
  set (l2 := fresh (dom (<[l1 := g1]> h))).
  pose proof (fresh_unused h) as Hnew1.
  pose proof (fresh_unused (<[l1 := g1]> h)) as Hnew2.
  fold l1 in Hnew1. fold l2 in Hnew2.
  exists l1, g1, l2. eexists. split; [reflexivity|].
  assert (l1 ≠ self) by congruence.
  assert (l1 ≠ l2) by (intros Heq; rewrite <- Heq in Hnew2; congruence).
  assert (l2 ≠ self).
  { intros ->. rewrite lookup_insert_ne in Hnew2 by done. congruence. }
  split_and!; done.
Qed.






(** ** Copy, further *)

Lemma comprehension_ext {X Y : Type} (g1 g2 : X → outcome Y) xs :
  (∀ x, g1 x = g2 x) → comprehension g1 xs = comprehension g2 xs.
Proof.
  intros Hext. induction xs as [|x xs IH]; [done|].
  cbn. by rewrite Hext, IH.
Qed.

Lemma function_to_table_rec_ext (f1 f2 : list Z → outcome V) dims :
  (∀ x, f1 x = f2 x) →
  function_to_table_rec f1 dims = function_to_table_rec f2 dims.
Proof.
  revert f1 f2. induction dims as [|d ds IH]; intros f1 f2 Hext; cbn.
  - by rewrite Hext.
  - rewrite (comprehension_ext _
               (λ i, function_to_table_rec (λ xs, f2 (i :: xs)) ds)); [done|].
    intros i. apply IH. intros xs. apply Hext.
Qed.

(** X17. The copy of any instance, when the copied function object behaves
    as the function it copies: a new instance on the same domain, without a
    table, that evaluates as the original everywhere; its first [to_table]
    gives what the original's first [to_table] gives, and leaves the
    original as it is. *)
Theorem copy_is_independent h self this extra :
  h !! self = Some this →
  (∀ x extra', fn_call (copy_func (representation this)) x extra' =
               fn_call (representation this) x extra') →
  ∃ l g,
    run (copy self) h = (Return l, <[l := g]> h) ∧
    h !! l = None ∧
    domain g = domain this ∧
    table g = None ∧
    (∀ p extra', evaluate g p extra' = evaluate this p extra') ∧
    (table this = None →
     fst (run (to_table l extra) (<[l := g]> h)) =
     fst (run (to_table self extra) h)) ∧
    snd (run (to_table l extra) (<[l := g]> h)) !! self = Some this.
Proof.
  intros Hself Hcall. unfold copy. step_read Hself.
  rewrite run_new_closure.
  assert (Hcopy : LCA_copy (domain this) = domain this)
    by (unfold LCA_copy; now destruct (domain this)).
  rewrite Hcopy.
  set (l := fresh (dom h)).
  set (g := closure_object (copy_func (representation this)) (domain this)).
  pose proof (fresh_unused h) as Hnew. fold l in Hnew.
  assert (Hl : (<[l := g]> h) !! l = Some g) by apply lookup_insert_eq.
  assert (l ≠ self) by congruence.
  exists l, g. split_and!; try done.
  - intros p extra'. unfold evaluate.
    cbn [domain representation closure_object g].
    destruct (bool_decide (1 < LCA_length (domain this))%nat);
      destruct p as [x|xs]; cbn;
      repeat (case_bool_decide; cbn); try reflexivity; apply Hcall.
  - intros Hnone.
    destruct (_discrete_periodic_domain (domain this)) eqn:Hdp.
    + rewrite (run_to_table_first _ _ _ extra Hl Hdp eq_refl).
      rewrite (run_to_table_first _ _ _ extra Hself Hdp Hnone).
      cbn [domain representation closure_object g].
      unfold function_to_table.
      rewrite (function_to_table_rec_ext _
                 (λ xs, fn_call (representation this) xs extra))
        by (intros x; apply Hcall).
      by destruct (function_to_table_rec _ _).
    + by rewrite (run_to_table_other _ _ _ extra Hl Hdp),
                 (run_to_table_other _ _ _ extra Hself Hdp).
  - destruct (run (to_table l extra) (<[l := g]> h)) as [r h'] eqn:Hrun.
    destruct (to_table_frame _ _ _ _ _ _ Hl Hrun) as [->|[t ->]]; cbn.
    + by rewrite lookup_insert_ne.
    + by rewrite !lookup_insert_ne.
Qed.

(** ** What the six transforms leave behind *)

(** X19. Each of [shift], [pullback], [pushforward], [transversal],
    [pointwise] and [copy] either raises and leaves the heap as it is, or
    hands back the address of one new instance, not in use before and so
    not the receiver, which starts without a table; the receiver and every
    other instance, table cache included, are exactly what they were. *)
Theorem transform_frame h self this (m : M positive) r h' :
  transform_call self m →
  h !! self = Some this →
  run m h = (r, h') →
  match r with
  | Return l =>
      h !! l = None ∧ l ≠ self ∧
      (∃ g, h' = <[l := g]> h ∧ table g = None) ∧
      h' !! self = Some this ∧
      ∀ l0, l0 ≠ l → h' !! l0 = h !! l0
  | Raise _ => h' = h
  end.
Proof.
  intros Hcall Hself.
  assert (Hnew : ∀ f (G : LCA),
    run (new (FunctionType f) G) h = (r, h') →
    match r with
    | Return l =>
        h !! l = None ∧ l ≠ self ∧
        (∃ g, h' = <[l := g]> h ∧ table g = None) ∧
        h' !! self = Some this ∧
        ∀ l0, l0 ≠ l → h' !! l0 = h !! l0
    | Raise _ => h' = h
    end).
  { intros f G. rewrite run_new_closure. intros [= <- <-].
    pose proof (fresh_unused h) as Hfresh.
    assert (fresh (dom h) ≠ self) by congruence.
    split_and!; try done.
    - by eexists.
    - by rewrite lookup_insert_ne.
    - intros l0 Hne. by rewrite lookup_insert_ne. }
  destruct Hcall as [list_shift|morphism|morphism norm_condition
                     |epimorphism transversal_rule default|other operator|].
  - unfold shift. step_read Hself. apply Hnew.
  - unfold pullback. step_read Hself.
    case_bool_decide; cbn [negb]; [apply Hnew|by intros [= <- <-]].
  - unfold pushforward. step_read Hself.
    case_bool_decide; cbn [negb]; [apply Hnew|by intros [= <- <-]].
  - unfold transversal. step_read Hself. apply Hnew.
  - unfold pointwise. step_read Hself. rewrite run_bind. unfold read.
    cbn [run]. destruct (h !! other) as [that|]; [|by intros [= <- <-]].
    case_bool_decide; [by intros [= <- <-]|apply Hnew].
  - unfold copy. step_read Hself. apply Hnew.
Qed.

End Further.

(** * The further properties at concrete instances *)

Lemma heap_of_lookup (this : Function Z unit) :
  ({[1%positive := this]} : gmap positive (Function Z unit)) !! 1%positive
  = Some this.
Proof. apply lookup_singleton_eq. Defined.

Lemma sample_keeps_order_witness :
  sample f_on_Zn (map Num (range 0 5)) no_extra = Return [0; 1; 4; 9; 16] ∧
  length [0; 1; 4; 9; 16] = length (map Num (range 0 5)) ∧
  sample f_on_Zn [Num 1; List [1; 2]; Num 3] no_extra =
    Raise ArgumentLengthMismatch.
Proof.
  destruct (sample_keeps_order f_on_Zn no_extra) as (Hreturn & _ & Hraise).
  assert (Hs : sample f_on_Zn (map Num (range 0 5)) no_extra
               = Return [0; 1; 4; 9; 16]) by reflexivity.
  split; [exact Hs|]. split; [exact (proj1 (Hreturn _ _ Hs))|].
  apply (Hraise [Num 1] (List [1; 2]) [Num 3]); [|reflexivity].
  intros q Hq. apply list_elem_of_singleton in Hq as ->. by eexists.
Defined.

Lemma evaluate_number_edges_witness :
  evaluate one_on_Z2 (Num 3) no_extra =
    Raise (ValueError "Argument to function must be list.") ∧
  evaluate (closure_instance (λ _, 7) (LCA_of [])) (List []) no_extra =
    Return 7.
Proof.
  split.
  - apply (proj1 (evaluate_number_edges one_on_Z2 no_extra)). cbn. lia.
  - rewrite (proj2 (proj2 (evaluate_number_edges
                             (closure_instance (λ _, 7) (LCA_of []))
                             no_extra) eq_refl)).
    reflexivity.
Defined.

Lemma pointwise_evaluates_witness :
  ∃ l g,
    run (pointwise 1%positive 1%positive (λ u v, Return (u * v)))
      {[1%positive := f_on_Zn]} =
      (Return l, <[l := g]> {[1%positive := f_on_Zn]}) ∧
    evaluate g (Num 7) no_extra = Return 16.
Proof.
  destruct (proj1 (pointwise_evaluates _ 1%positive 1%positive f_on_Zn
                     f_on_Zn (λ u v, Return (u * v))
                     (heap_of_lookup f_on_Zn) (heap_of_lookup f_on_Zn))
              eq_refl) as (l & g & Hrun & _ & _ & Heval).
  exists l, g. split; [exact Hrun|]. rewrite Heval. reflexivity.
Defined.

Lemma pushforward_filter_short_circuits_witness :
  ∃ l g,
    run (pushforward 1%positive first_coordinate
           (Some (λ x, norm1 x <=? 1)))
      {[1%positive := one_on_Z2]} =
      (Return l, <[l := g]> {[1%positive := one_on_Z2]}) ∧
    fn_call (representation g) [0] no_extra = Return 3.
Proof.
  destruct (pushforward_filter_short_circuits _ 1%positive one_on_Z2
              first_coordinate (λ x, norm1 x <=? 1)
              (heap_of_lookup one_on_Z2) eq_refl) as (l & g & Hrun & Heval).
  exists l, g. split; [exact Hrun|].
  rewrite (Heval
             {| fn_name := "partial";
                fn_call := λ x _,
                  if norm1 x <=? 1 then Return 1
                  else Raise (ValueError "not defined here") |}
             [0] no_extra).
  - reflexivity.
  - intros x Hx. cbn. by rewrite Hx.
Defined.

Lemma pushforward_trivial_kernel_witness :
  pushforward_representation (Externals0 := identity_externals)
    (lambda (λ x, sum x ^ 2)) identity_on_Z default_norm_condition [3]
    no_extra = Return 9 ∧
  pushforward_representation (Externals0 := identity_externals)
    (lambda (λ x, sum x ^ 2)) identity_on_Z default_norm_condition [30]
    no_extra = Return 0.
Proof.
  split.
  - rewrite (pushforward_trivial_kernel (Externals0 := identity_externals)
               (lambda (λ x, sum x ^ 2)) identity_on_Z
               default_norm_condition [3] no_extra [3] [0] [3]);
      reflexivity.
  - rewrite (pushforward_trivial_kernel (Externals0 := identity_externals)
               (lambda (λ x, sum x ^ 2)) identity_on_Z
               default_norm_condition [30] no_extra [30] [0] [30]);
      reflexivity.
Defined.

Lemma pushforward_errors_witness :
  run (pushforward 1%positive first_coordinate None)
    {[1%positive := f_on_Zn]} =
    (Raise (ValueError "Source of morphism must equal domain of function."),
     {[1%positive := f_on_Zn]}) ∧
  ∃ l g,
    run (pushforward 1%positive first_coordinate None)
      {[1%positive := one_on_Z2]} =
      (Return l, <[l := g]> {[1%positive := one_on_Z2]}) ∧
    fn_call (representation g) [1] no_extra =
      Raise (ValueError "only homogeneous systems are solved here").
Proof.
  split.
  - apply (proj1 (pushforward_errors _ 1%positive f_on_Zn first_coordinate
                    None (heap_of_lookup f_on_Zn))).
    discriminate.
  - destruct (proj2 (pushforward_errors _ 1%positive one_on_Z2
                       first_coordinate None (heap_of_lookup one_on_Z2))
                eq_refl) as (l & g & Hrun & _ & _ & _ & Hsolve).
    exists l, g. split; [exact Hrun|]. by apply Hsolve.
Defined.

Lemma to_table_writes_once_witness :
  let h' := <[1%positive := with_table f_on_Zn squares_table]>
              ({[1%positive := f_on_Zn]} : gmap positive (Function Z unit)) in
  run (to_table 1%positive no_extra) {[1%positive := f_on_Zn]} =
    (Return (Some squares_table), h') ∧
  ∃ this', h' !! 1%positive = Some this' ∧
           representation this' = representation f_on_Zn ∧
           table this' = Some squares_table.
Proof.
  intros h'.
  assert (Hrun : run (to_table 1%positive no_extra) {[1%positive := f_on_Zn]}
                 = (Return (Some squares_table), h')) by reflexivity.
  split; [exact Hrun|].
  destruct (to_table_writes_once _ _ _ _ _ _ (heap_of_lookup f_on_Zn) Hrun)
    as [(this' & Hthis' & _ & Hrep & _ & Htable) _].
  exists this'. split; [exact Hthis'|]. split; [exact Hrep|].
  by apply Htable.
Defined.

Lemma table_instance_to_table_witness :
  __init__ (TableArg squares_table) (LCA_of [5]) = Return table_on_Z5 ∧
  run (to_table 1%positive no_extra) {[1%positive := table_on_Z5]} =
    (Return (Some squares_table), {[1%positive := table_on_Z5]}).
Proof.
  assert (Hinit : __init__ (TableArg squares_table) (LCA_of [5])
                  = Return table_on_Z5) by reflexivity.
  split; [exact Hinit|].
  exact (table_instance_to_table _ 1%positive table_on_Z5 squares_table
           (LCA_of [5]) no_extra Hinit (heap_of_lookup table_on_Z5)).
Defined.

Lemma methods_keep_heap_sound_witness :
  sound_heap ({[1%positive := table_on_Z5]}
                : gmap positive (Function Z unit)) ∧
  sound_heap (snd (run (shift 1%positive [2]) {[1%positive := table_on_Z5]})) ∧
  sound_heap (snd (run (dft 1%positive None) {[1%positive := table_on_Z5]})).
Proof.
  assert (Hsound : sound_heap ({[1%positive := table_on_Z5]}
                                 : gmap positive (Function Z unit))).
  { intros l this [<- <-]%lookup_singleton_Some _. reflexivity. }
  destruct (methods_keep_heap_sound (V := Z) (E := unit) 1%positive)
    as (_ & Htransform & Hdft & _).
  split; [exact Hsound|]. split.
  - eapply (Htransform _ (call_shift _ [2])); [exact Hsound|].
    apply surjective_pairing.
  - eapply (Hdft None); [exact Hsound|]. apply surjective_pairing.
Defined.

Lemma table_round_trip_witness :
  function_to_table (representation f_on_Zn) (periods (domain f_on_Zn))
    no_extra = Return squares_table ∧
  ∃ that,
    __init__ (TableArg squares_table) (LCA_of [5]) = Return that ∧
    evaluate that (List [13]) no_extra = Return 9 ∧
    evaluate f_on_Zn (List [13]) no_extra = Return 9.
Proof.
  assert (Ht : function_to_table (representation f_on_Zn)
                 (periods (domain f_on_Zn)) no_extra = Return squares_table)
    by reflexivity.
  split; [exact Ht|].
  destruct (table_round_trip f_on_Zn squares_table) as (that & Hinit & _ & Hev).
  - intros t' point v Hidx. cbn. by rewrite Hidx.
  - intros t' dims Hshape. exact Hshape.
  - reflexivity.
  - exact Ht.
  - exists that. split; [exact Hinit|]. split; [|reflexivity].
    rewrite (Hev [13] eq_refl). reflexivity.
Defined.


Lemma dft_idft_scaling_witness :
  let t := Rows [Rows [Entry 0; Entry 12; Entry 24];
                 Rows [Entry 12; Entry 24; Entry 36]] in
  let h1 := <[1%positive := with_table twelve_sum_on_Z2_Z3 t]>
              ({[1%positive := twelve_sum_on_Z2_Z3]}
                 : gmap positive (Function Z unit)) in
  (∃ l g,
     run (dft (Externals0 := passthrough_externals) 1%positive None)
       {[1%positive := twelve_sum_on_Z2_Z3]} =
       (Return (FunctionRef l), <[l := g]> h1) ∧
     table g = Some (Rows [Rows [Entry 0; Entry 2; Entry 4];
                           Rows [Entry 2; Entry 4; Entry 6]])) ∧
  (∃ l g,
     run (idft (Externals0 := passthrough_externals) 1%positive None)
       {[1%positive := twelve_sum_on_Z2_Z3]} =
       (Return (FunctionRef l), <[l := g]> h1) ∧
     table g = Some (Rows [Rows [Entry 0; Entry 72; Entry 144];
                           Rows [Entry 72; Entry 144; Entry 216]])).
Proof.
  intros t h1.
  assert (Htable : run (to_table 1%positive no_extra)
                     {[1%positive := twelve_sum_on_Z2_Z3]}
                   = (Return (Some t), h1)) by reflexivity.
  destruct (dft_idft_scaling (Externals0 := passthrough_externals)
              _ h1 1%positive twelve_sum_on_Z2_Z3
              (λ tbl, match tbl with
                      | Some t => Return t
                      | None => Raise (TypeError "no table")
                      end) t t
              (heap_of_lookup twelve_sum_on_Z2_Z3) eq_refl
              ltac:(discriminate) Htable eq_refl) as [Hdft Hidft].
  split.
  - destruct (Hdft eq_refl eq_refl) as (l & g & Hrun & _ & _ & Hg).
    exists l, g. split; [exact Hrun|]. rewrite Hg. reflexivity.
  - destruct (Hidft eq_refl eq_refl) as (l & g & Hrun & _ & _ & Hg).
    exists l, g. split; [exact Hrun|]. rewrite Hg. reflexivity.
Defined.

Lemma dft_idft_frame_witness :
  ∃ r h',
    run (dft (Externals0 := passthrough_externals) 1%positive None)
      {[1%positive := twelve_sum_on_Z2_Z3]} = (r, h') ∧
    r = Return (FunctionRef 2%positive) ∧
    ∃ this', h' !! 1%positive = Some this' ∧
             representation this' = representation twelve_sum_on_Z2_Z3.
Proof.
  destruct (run (dft (Externals0 := passthrough_externals) 1%positive None)
              {[1%positive := twelve_sum_on_Z2_Z3]}) as [r h'] eqn:Hrun.
  exists r, h'. split; [reflexivity|]. split.
  - vm_compute in Hrun. by injection Hrun as <- _.
  - destruct (dft_idft_frame (Externals0 := passthrough_externals)
                _ 1%positive twelve_sum_on_Z2_Z3 None r h'
                (heap_of_lookup twelve_sum_on_Z2_Z3) (or_introl Hrun))
      as [(this' & Hthis' & _ & Hrep) _].
    by exists this'.
Defined.

Lemma pullback_twice_witness :
  ∃ l1 g1 l2 g2,
    run (l1 ← pullback 1%positive epimorphism_Z_Z5;
         pullback l1 (Homomorphism [[2]] (LCA_of [0]) (LCA_of [0])))
      {[1%positive := f_on_Zn]} =
      (Return l2, <[l2 := g2]> (<[l1 := g1]> {[1%positive := f_on_Zn]})) ∧
    fn_call (representation g2) [4] no_extra = Return 9.
Proof.
  destruct (pullback_twice _ 1%positive f_on_Zn epimorphism_Z_Z5
              (Homomorphism [[2]] (LCA_of [0]) (LCA_of [0]))
              (heap_of_lookup f_on_Zn) eq_refl eq_refl)
    as (l1 & g1 & l2 & g2 & Hrun & _ & _ & _ & _ & _ & Hcall).
  exists l1, g1, l2, g2. split; [exact Hrun|]. rewrite Hcall. reflexivity.
Defined.



Lemma copy_is_independent_witness :
  ∃ l g,
    run (copy 1%positive) {[1%positive := f_on_Zn]} =
      (Return l, <[l := g]> {[1%positive := f_on_Zn]}) ∧
    fst (run (to_table l no_extra) (<[l := g]> {[1%positive := f_on_Zn]})) =
      Return (Some squares_table) ∧
    snd (run (to_table l no_extra) (<[l := g]> {[1%positive := f_on_Zn]}))
      !! 1%positive = Some f_on_Zn.
Proof.
  destruct (copy_is_independent _ 1%positive f_on_Zn no_extra
              (heap_of_lookup f_on_Zn))
    as (l & g & Hrun & _ & _ & _ & _ & Htable & Hkeep).
  - intros x extra'. reflexivity.
  - exists l, g. split; [exact Hrun|]. split; [|exact Hkeep].
    rewrite (Htable eq_refl). reflexivity.
Defined.

Lemma transform_frame_witness :
  ∃ l h',
    run (shift 1%positive [2]) {[1%positive := table_on_Z5]} =
      (Return l, h') ∧
    l ≠ 1%positive ∧
    h' !! 1%positive = Some table_on_Z5.
Proof.
  destruct (run (shift 1%positive [2]) {[1%positive := table_on_Z5]})
    as [r h'] eqn:Hrun.
  pose proof (transform_frame _ 1%positive table_on_Z5 _ r h'
                (call_shift _ [2]) (heap_of_lookup table_on_Z5) Hrun)
    as Hframe.
  assert (Hr : r = Return 2%positive)
    by (vm_compute in Hrun; by injection Hrun as <- _).
  subst r. destruct Hframe as (_ & Hne & _ & Hself & _).
  by exists 2%positive, h'.
Defined.
